(** * Chronos service: hash-chain ledger, temporal coordinator, proof engine

    A shallow embedding of [SAUC-MASTER-FINAL/chronos/service.py] and the
    properties of its ledger, its event timeline, its per-agent locks and
    its before/after proofs.

    Conventions of the embedding.
    - A Python [str] is a Rocq [string] holding its UTF-8 bytes, so that
      [data.encode()] is the identity and [bytes] values are strings too.
    - A [BlockchainTransaction] is an object its creator keeps a reference
      to and [add_transaction] writes to: transactions live in an explicit
      heap and the ledger's chain is a list of references into it. Proofs
      and events are only reached through the lists that store them and are
      held there by value.
    - Clock readings ([time.time()], [datetime.now()]), the file system and
      the outcome of the awaited coordination step are inputs of the
      operations.
    - [json.dumps] is an interface of the payload type; [hashlib.sha256] is
      implemented below and computes.
    - The [try/except Exception] blocks around [add_transaction],
      [finalize_proof], [verify_consolidation_chain] and
      [_verify_temporal_consistency] guard statements that do not raise on
      arguments of the declared types; only the handler of
      [coordinate_operation], reached from the awaited step, is modelled. *)

From stdpp Require Import gmap strings list fin_maps pretty sorting.
From Stdlib Require Import ZArith Ascii.

(** ** SHA-256 ([hashlib.sha256(..).hexdigest()]) *)

Module SHA256.
Local Open Scope Z_scope.

Definition w32 (x : Z) : Z := x mod 4294967296.
Definition add32 (x y : Z) : Z := w32 (x + y).
Definition rotr (n x : Z) : Z := w32 (Z.lor (Z.shiftr x n) (Z.shiftl x (32 - n))).
Definition not32 (x : Z) : Z := 4294967295 - x.

Definition Ch (x y z : Z) : Z := Z.lxor (Z.land x y) (Z.land (not32 x) z).
Definition Maj (x y z : Z) : Z :=
  Z.lxor (Z.lxor (Z.land x y) (Z.land x z)) (Z.land y z).
Definition Sigma0 (x : Z) : Z := Z.lxor (Z.lxor (rotr 2 x) (rotr 13 x)) (rotr 22 x).
Definition Sigma1 (x : Z) : Z := Z.lxor (Z.lxor (rotr 6 x) (rotr 11 x)) (rotr 25 x).
Definition sigma0 (x : Z) : Z := Z.lxor (Z.lxor (rotr 7 x) (rotr 18 x)) (Z.shiftr x 3).
Definition sigma1 (x : Z) : Z := Z.lxor (Z.lxor (rotr 17 x) (rotr 19 x)) (Z.shiftr x 10).

(** The largest [r] below [2 ^ bits] with [r ^ 3 <= n], one bit at a time. *)
Fixpoint cube_root (bits : nat) (n r : Z) : Z :=
  match bits with
  | O => r
  | S b =>
      let r' := r + 2 ^ Z.of_nat b in
      cube_root b n (if r' * r' * r' <=? n then r' else r)
  end.

Definition primes : list Z :=
  [ 2; 3; 5; 7; 11; 13; 17; 19; 23; 29; 31; 37; 41; 43; 47; 53; 59; 61; 67; 71;
    73; 79; 83; 89; 97; 101; 103; 107; 109; 113; 127; 131; 137; 139; 149; 151;
    157; 163; 167; 173; 179; 181; 191; 193; 197; 199; 211; 223; 227; 229; 233;
    239; 241; 251; 257; 263; 269; 271; 277; 281; 283; 293; 307; 311 ].

(** Round constants: the first 32 fractional bits of the cube roots of the
    first 64 primes. *)
Definition K : list Z :=
  Eval vm_compute in (λ p, w32 (cube_root 36 (p * 2 ^ 96) 0)) <$> primes.

(** Initial state: the first 32 fractional bits of the square roots of the
    first 8 primes. *)
Definition H0 : list Z :=
  Eval vm_compute in (λ p, w32 (Z.sqrt (p * 2 ^ 64))) <$> take 8 primes.

(** The low [n] bytes of [x], most significant first. *)
Fixpoint be_bytes (n : nat) (x : Z) : list Z :=
  match n with
  | O => []
  | S n' => be_bytes n' (Z.shiftr x 8) ++ [Z.land x 255]
  end.

(** Message, then 0x80, then zeros up to 56 mod 64, then the bit length. *)
Definition pad (msg : list Z) : list Z :=
  let len := Z.of_nat (List.length msg) in
  let zeros := Z.to_nat ((55 - len) mod 64) in
  msg ++ [128] ++ replicate zeros 0 ++ be_bytes 8 (8 * len).

Fixpoint words_of (n : nat) (bs : list Z) : list Z :=
  match n, bs with
  | S n', b0 :: b1 :: b2 :: b3 :: rest =>
      (Z.shiftl b0 24 + Z.shiftl b1 16 + Z.shiftl b2 8 + b3) :: words_of n' rest
  | _, _ => []
  end.

Definition wnth (w : list Z) (i : nat) : Z := nth i w 0.

(** Extends the sixteen words of a block by [n] more words. *)
Fixpoint schedule (n : nat) (w : list Z) : list Z :=
  match n with
  | O => w
  | S n' =>
      let t := List.length w in
      let x := add32 (add32 (sigma1 (wnth w (t - 2))) (wnth w (t - 7)))
                     (add32 (sigma0 (wnth w (t - 15))) (wnth w (t - 16))) in
      schedule n' (w ++ [x])
  end.

Record regs := Regs { ra : Z; rb : Z; rc : Z; rd : Z; re : Z; rf : Z; rg : Z; rh : Z }.

Definition round (s : regs) (kw : Z * Z) : regs :=
  let '(Regs a b c d e f g h) := s in
  let t1 := add32 (add32 (add32 h (Sigma1 e)) (add32 (Ch e f g) (fst kw))) (snd kw) in
  let t2 := add32 (Sigma0 a) (Maj a b c) in
  Regs (add32 t1 t2) a b c (add32 d t1) e f g.

Definition regs_of (h : list Z) : regs :=
  Regs (wnth h 0) (wnth h 1) (wnth h 2) (wnth h 3) (wnth h 4) (wnth h 5) (wnth h 6) (wnth h 7).

Definition compress (h : list Z) (block : list Z) : list Z :=
  let w := schedule 48 (words_of 16 block) in
  let '(Regs a b c d e f g hh) := fold_left round (combine K w) (regs_of h) in
  [ add32 (wnth h 0) a; add32 (wnth h 1) b; add32 (wnth h 2) c; add32 (wnth h 3) d;
    add32 (wnth h 4) e; add32 (wnth h 5) f; add32 (wnth h 6) g; add32 (wnth h 7) hh ].

Fixpoint process (nblocks : nat) (h : list Z) (bs : list Z) : list Z :=
  match nblocks with
  | O => h
  | S n => process n (compress h (take 64 bs)) (drop 64 bs)
  end.

Definition digest (msg : list Z) : list Z :=
  let p := pad msg in
  mjoin (be_bytes 4 <$> process (List.length p / 64) H0 p).

Definition hex_digit (d : Z) : ascii :=
  ascii_of_N (Z.to_N (if d <? 10 then 48 + d else 87 + d)).

Fixpoint hex (bs : list Z) : string :=
  match bs with
  | [] => EmptyString
  | b :: rest => String (hex_digit (Z.shiftr b 4)) (String (hex_digit (Z.land b 15)) (hex rest))
  end.

Fixpoint bytes_of_string (s : string) : list Z :=
  match s with
  | EmptyString => []
  | String c rest => Z.of_N (N_of_ascii c) :: bytes_of_string rest
  end.

Definition hexdigest (s : string) : string := hex (digest (bytes_of_string s)).

End SHA256.

(** ** Inputs from the environment *)

(** One reading of the clock, in the four forms the service formats it. *)
Record instant := Instant {
  time_repr : string;     (* f"{time.time()}" *)
  time_millis : Z;        (* int(time.time() * 1000) *)
  time_secs : Z;          (* int(time.time()) *)
  now_isoformat : string  (* datetime.now().isoformat() *)
}.

(** [json.dumps(data)] and [json.dumps(data, sort_keys=True)]. *)
Class JsonDumps (Payload : Type) := {
  json_dumps : Payload → string;
  json_dumps_sorted : Payload → string
}.

(** A payload given by its JSON text; its keys are already in sorted order. *)
#[export] Instance json_text : JsonDumps string :=
  {| json_dumps s := s; json_dumps_sorted s := s |}.

(** A dict-shaped value, as far as the coordinator builds them. *)
Local Unset Elimination Schemes.
Inductive pyval :=
  | PyStr (s : string)
  | PyInt (z : Z)
  | PyList (l : list pyval)
  | PyDict (kvs : list (string * pyval)).
Local Set Elimination Schemes.

(** One record handed to [logger]. *)
Inductive log_record :=
  | LogInfo (msg : string)
  | LogError (msg : string).

(** ** BlockchainOrchestrator *)

Record BlockchainTransaction := {
  tx_id : string;
  timestamp : string;
  operation : string;
  data_hash : string;
  previous_hash : string;
  merkle_root : string;
  status : string
}.

Definition set_status (tx : BlockchainTransaction) (s : string) : BlockchainTransaction :=
  {| tx_id := tx_id tx; timestamp := timestamp tx; operation := operation tx;
     data_hash := data_hash tx; previous_hash := previous_hash tx;
     merkle_root := merkle_root tx; status := s |}.

(** A reference to a transaction object: its index in the heap. *)
Abbreviation ref := nat (only parsing).

Definition genesis_hash : string :=
  "0000000000000000000000000000000000000000000000000000000000000000".

Definition calculate_hash (data : string) : string := SHA256.hexdigest data.
Global Arguments calculate_hash : simpl never.

(** One level of the tree: the body of the [for i in range(0, len, 2)] loop. *)
Fixpoint merkle_level (hashes : list string) : list string :=
  match hashes with
  | [] => []
  | [h] => [calculate_hash (h +:+ h)]
  | h1 :: h2 :: rest => calculate_hash (h1 +:+ h2) :: merkle_level rest
  end.

(** [while len(hashes) > 1: hashes = new_hashes], at most [fuel] times. *)
Fixpoint merkle_reduce (fuel : nat) (hashes : list string) : list string :=
  match fuel with
  | O => hashes
  | S fuel' =>
      if bool_decide (1 < length hashes)
      then merkle_reduce fuel' (merkle_level hashes)
      else hashes
  end.

Definition calculate_merkle_root (transactions : list string) : string :=
  match transactions with
  | [] => genesis_hash
  | _ =>
      let hashes := calculate_hash <$> transactions in
      match merkle_reduce (length hashes) hashes with
      | h :: _ => h
      | [] => genesis_hash
      end
  end.

Section Ledger.
Context {Payload : Type} `{!JsonDumps Payload}.

(** The transaction objects of the process and the orchestrator's fields. *)
Record ledger_state := {
  heap : list BlockchainTransaction;
  chain : list ref;
  pending_transactions : list Payload
}.

(** [self.chain[-1].data_hash if self.chain else self.genesis_hash];
    [None] only for a chain entry that is not an object of the heap. *)
Definition latest_hash (s : ledger_state) : option string :=
  match last (chain s) with
  | Some r => data_hash <$> heap s !! r
  | None => Some genesis_hash
  end.

Definition create_transaction (s : ledger_state) (op : string) (data : Payload)
    (clk : instant) : option (ref * ledger_state) :=
  let id := calculate_hash (op +:+ "_" +:+ time_repr clk +:+ "_" +:+ json_dumps data) in
  let ts := now_isoformat clk in
  let dh := calculate_hash (json_dumps_sorted data) in
  prev ← latest_hash s;
  let mr := calculate_merkle_root [json_dumps data] in
  let transaction :=
    {| tx_id := id; timestamp := ts; operation := op; data_hash := dh;
       previous_hash := prev; merkle_root := mr; status := "pending" |} in
  Some (length (heap s),
        {| heap := heap s ++ [transaction]; chain := chain s;
           pending_transactions := pending_transactions s |}).

Definition _validate_transaction (s : ledger_state) (transaction : BlockchainTransaction)
    : option bool :=
  if bool_decide (tx_id transaction = "") || bool_decide (timestamp transaction = "")
  then Some false
  else
    expected_previous ← latest_hash s;
    if bool_decide (previous_hash transaction ≠ expected_previous)
    then Some false
    else Some true.

(** The argument is a reference: the caller keeps the object it passes. *)
Definition add_transaction (s : ledger_state) (r : ref) : option (bool * ledger_state) :=
  transaction ← heap s !! r;
  ok ← _validate_transaction s transaction;
  if ok : bool
  then Some (true,
             {| heap := <[r := set_status transaction "confirmed"]> (heap s);
                chain := chain s ++ [r];
                pending_transactions := pending_transactions s |})
  else Some (false,
             {| heap := <[r := set_status transaction "rejected"]> (heap s);
                chain := chain s;
                pending_transactions := pending_transactions s |}).

(** The transactions of the chain, in order, as the heap has them now. *)
Definition chain_objects (s : ledger_state) : option (list BlockchainTransaction) :=
  mapM (λ r, heap s !! r) (chain s).

(** [DLTOperations.verify_consolidation_chain]: the [for i, tx in enumerate]
    loop from index [i] on, [rest] being what is left of [whole]. *)
Fixpoint verify_loop (whole : list BlockchainTransaction) (i : nat)
    (rest : list BlockchainTransaction) : bool * list log_record :=
  match rest with
  | [] => (true, [LogInfo "Consolidation chain verified successfully"])
  | tx :: rest' =>
      match i with
      | O =>
          if bool_decide (previous_hash tx ≠ genesis_hash)
          then (false, [LogError "Genesis transaction invalid"])
          else verify_loop whole 1 rest'
      | S j =>
          match whole !! j with
          | Some before =>
              if bool_decide (previous_hash tx ≠ data_hash before)
              then (false, [LogError ("Hash chain broken at transaction " +:+ pretty i)])
              else verify_loop whole (S i) rest'
          | None => (false, [LogError "Chain verification failed: list index out of range"])
          end
      end
  end.

Definition verify_consolidation_chain (s : ledger_state) : option (bool * list log_record) :=
  txs ← chain_objects s;
  if bool_decide (length txs = 0)
  then Some (true, [])
  else Some (verify_loop txs 0 txs).

(** A fresh orchestrator, next to the objects [objs] the process already has. *)
Definition new_ledger (objs : list BlockchainTransaction) : ledger_state :=
  {| heap := objs; chain := []; pending_transactions := [] |}.

(** Calls on the orchestrator, and their effect in sequence. *)
Inductive ledger_call :=
  | CreateTransaction (op : string) (data : Payload) (clk : instant)
  | AddTransaction (r : ref).

Definition perform (s : ledger_state) (c : ledger_call) : option ledger_state :=
  match c with
  | CreateTransaction op data clk => snd <$> create_transaction s op data clk
  | AddTransaction r => snd <$> add_transaction s r
  end.

Fixpoint run (s : ledger_state) (calls : list ledger_call) : option ledger_state :=
  match calls with
  | [] => Some s
  | c :: calls' => s' ← perform s c; run s' calls'
  end.

(** Every [AddTransaction] names an object that exists when it is made,
    [n] being the number of objects before the first call. *)
Fixpoint calls_live (n : nat) (calls : list ledger_call) : bool :=
  match calls with
  | [] => true
  | CreateTransaction _ _ _ :: calls' => calls_live (S n) calls'
  | AddTransaction r :: calls' => bool_decide (r < n) && calls_live n calls'
  end.

End Ledger.

Global Arguments ledger_state : clear implicits.
Global Arguments ledger_call : clear implicits.

(** The spec's [verify_chain], for comparison with the code: the index of
    the first transaction whose link is wrong, [None] standing for "valid". *)
Definition link_ok (txs : list BlockchainTransaction) (i : nat) : bool :=
  match txs !! i, i with
  | None, _ => true
  | Some tx, O => bool_decide (previous_hash tx = genesis_hash)
  | Some tx, S j =>
      match txs !! j with
      | Some before => bool_decide (previous_hash tx = data_hash before)
      | None => false
      end
  end.

Definition spec_verify_chain (txs : list BlockchainTransaction) : option nat :=
  fst <$> list_find (λ i, link_ok txs i = false) (seq 0 (length txs)).

(** The error record the code writes when it stops at index [i]. *)
Definition break_message (i : nat) : log_record :=
  match i with
  | O => LogError "Genesis transaction invalid"
  | S _ => LogError ("Hash chain broken at transaction " +:+ pretty i)
  end.

(** ** TemporalCoordinator *)

Record TemporalEvent := {
  event_id : string;
  event_timestamp : string;
  event_type : string;
  agent : string;
  data : pyval;
  sequence : nat
}.

Record TemporalCoordinator := {
  events : list TemporalEvent;
  sequence_counter : nat;
  coordination_locks : gmap string bool
}.

Definition new_coordinator : TemporalCoordinator :=
  {| events := []; sequence_counter := 0; coordination_locks := ∅ |}.

Definition register_event (c : TemporalCoordinator) (ty who : string) (d : pyval)
    (clk : instant) : string * TemporalCoordinator :=
  let id := "event_" +:+ pretty (time_millis clk) +:+ "_" +:+ pretty (sequence_counter c) in
  let counter := sequence_counter c + 1 in
  let event :=
    {| event_id := id; event_timestamp := now_isoformat clk; event_type := ty;
       agent := who; data := d; sequence := counter |} in
  (id, {| events := events c ++ [event]; sequence_counter := counter;
          coordination_locks := coordination_locks c |}).

(** [self.coordination_locks.get(agent, False)] *)
Definition locked (c : TemporalCoordinator) (who : string) : bool :=
  default false (coordination_locks c !! who).

Definition set_locks (v : bool) (agents : list string) (locks : gmap string bool)
    : gmap string bool :=
  foldl (λ m who, <[who := v]> m) locks agents.

Definition with_locks (c : TemporalCoordinator) (locks : gmap string bool)
    : TemporalCoordinator :=
  {| events := events c; sequence_counter := sequence_counter c;
     coordination_locks := locks |}.

Definition coordination_id (op : string) (clk : instant) : string :=
  "coord_" +:+ op +:+ "_" +:+ pretty (time_secs clk).

(** How [await asyncio.sleep(0.1)] ends: normally, or with an [Exception]. *)
Inductive awaited := Completed | Raised (e : string).

(** Where a call stands when it gives control back. *)
Inductive entry :=
  | Rejected                              (* returned False at the check *)
  | Suspended (c : TemporalCoordinator).  (* waiting in asyncio.sleep *)

(** [coordinate_operation] up to its only suspension point. *)
Definition coordinate_begin (c : TemporalCoordinator) (op : string)
    (agents : list string) (t0 t1 : instant) : entry :=
  let cid := coordination_id op t0 in
  if existsb (locked c) agents
  then Rejected
  else
    let c1 := with_locks c (set_locks true agents (coordination_locks c)) in
    let '(_, c2) :=
      register_event c1 "coordination_start" "chronos"
        (PyDict [("coordination_id", PyStr cid); ("operation", PyStr op);
                 ("agents", PyList (PyStr <$> agents))]) t1 in
    Suspended c2.

(** [coordinate_operation] from the suspension point to its return; [c] is
    the coordinator as it is when the call is resumed. *)
Definition coordinate_finish (c : TemporalCoordinator) (cid : string)
    (agents : list string) (slept : awaited) (t2 : instant)
    : bool * TemporalCoordinator :=
  match slept with
  | Completed =>
      let c1 := with_locks c (set_locks false agents (coordination_locks c)) in
      let '(_, c2) :=
        register_event c1 "coordination_complete" "chronos"
          (PyDict [("coordination_id", PyStr cid); ("status", PyStr "success")]) t2 in
      (true, c2)
  | Raised _ =>
      (false, with_locks c (set_locks false agents (coordination_locks c)))
  end.

(** A call that nothing interleaves with. *)
Definition coordinate_operation (c : TemporalCoordinator) (op : string)
    (agents : list string) (t0 t1 : instant) (slept : awaited) (t2 : instant)
    : bool * TemporalCoordinator :=
  match coordinate_begin c op agents t0 t1 with
  | Rejected => (false, c)
  | Suspended c1 => coordinate_finish c1 (coordination_id op t0) agents slept t2
  end.

(** [sorted(self.events, key=lambda x: x.sequence)]: a stable sort. *)
Fixpoint insert_by_sequence (e : TemporalEvent) (l : list TemporalEvent)
    : list TemporalEvent :=
  match l with
  | [] => [e]
  | y :: rest =>
      if bool_decide (sequence e ≤ sequence y)
      then e :: y :: rest
      else y :: insert_by_sequence e rest
  end.

Definition sorted_by_sequence (l : list TemporalEvent) : list TemporalEvent :=
  foldr insert_by_sequence [] l.

Definition get_event_timeline (c : TemporalCoordinator) (who : option string)
    : list TemporalEvent :=
  match who with
  | Some a =>
      if bool_decide (a ≠ "")
      then filter (λ e, agent e = a) (events c)
      else sorted_by_sequence (events c)
  | None => sorted_by_sequence (events c)
  end.

(** The [for i, event in enumerate(events)] loop from index [i] on. *)
Fixpoint check_sequence (i : nat) (l : list TemporalEvent) : bool :=
  match l with
  | [] => true
  | e :: rest =>
      if bool_decide (sequence e ≠ i + 1) then false else check_sequence (S i) rest
  end.

Definition _verify_temporal_consistency (c : TemporalCoordinator) : bool :=
  check_sequence 0 (get_event_timeline c None).

(** One [register_event] call: type, agent, data and the clock it reads. *)
Definition registration : Type := string * string * pyval * instant.

Definition register_all (c : TemporalCoordinator) (calls : list registration)
    : TemporalCoordinator :=
  foldl (λ c '(ty, who, d, clk), snd (register_event c ty who d clk)) c calls.

(** ** ProofEngine *)

Record ConsolidationProof := {
  proof_id : string;
  proof_operation : string;
  files_affected : list string;
  before_hash : string;
  after_hash : string;
  proof_timestamp : string;
  verified : bool
}.

Record ProofEngine := { proofs : list ConsolidationProof }.

(** What a path holds; a path outside the map does not exist. *)
Inductive file_entry :=
  | Unreadable                  (* open or read raises *)
  | Content (bytes : string).

(** The loop over [files]: the content of each file that exists and reads. *)
Definition read_files (fs : gmap string file_entry) (files : list string) : list string :=
  omap (λ path, match fs !! path with
                | Some (Content bytes) => Some bytes
                | Some Unreadable => None
                | None => None
                end) files.

(** [hashlib.sha256(b''.join(data)).hexdigest()] *)
Definition state_hash (fs : gmap string file_entry) (files : list string) : string :=
  SHA256.hexdigest (foldr String.append "" (read_files fs files)).
Global Arguments state_hash : simpl never.

Definition generate_consolidation_proof (e : ProofEngine) (op : string)
    (files : list string) (fs : gmap string file_entry) (clk : instant)
    : ConsolidationProof * ProofEngine :=
  let id := SHA256.hexdigest (op +:+ "_" +:+ time_repr clk) in
  let proof :=
    {| proof_id := id; proof_operation := op; files_affected := files;
       before_hash := state_hash fs files; after_hash := "";
       proof_timestamp := now_isoformat clk; verified := false |} in
  (proof, {| proofs := proofs e ++ [proof] |}).

(** [next((p for p in self.proofs if p.proof_id == proof_id), None)],
    with the position of the proof found. *)
Definition find_proof (e : ProofEngine) (id : string) : option (nat * ConsolidationProof) :=
  list_find (λ p, proof_id p = id) (proofs e).

Definition finalize_proof (e : ProofEngine) (id : string) (files : list string)
    (fs : gmap string file_entry) : bool * ProofEngine :=
  match find_proof e id with
  | None => (false, e)
  | Some (i, proof) =>
      let proof' :=
        {| proof_id := proof_id proof; proof_operation := proof_operation proof;
           files_affected := files_affected proof; before_hash := before_hash proof;
           after_hash := state_hash fs files;
           proof_timestamp := proof_timestamp proof; verified := true |} in
      (true, {| proofs := <[i := proof']> (proofs e) |})
  end.

Definition verify_integrity (e : ProofEngine) (id : string) : bool :=
  match find_proof e id with
  | None => false
  | Some (_, proof) =>
      verified proof
      && bool_decide (before_hash proof ≠ after_hash proof)
      && bool_decide (0 < length (files_affected proof))
  end.

(** ** The manifest *)

(** The dict [get_manifest] returns. *)
Record manifest := {
  manifest_chain_length : nat;
  manifest_latest_hash : string;
  manifest_total_transactions : nat;
  manifest_genesis_hash : string;
  manifest_last_updated : string
}.

Section Manifest.
Context {Payload : Type}.

Definition get_manifest (s : ledger_state Payload) (clk : instant) : option manifest :=
  latest ← latest_hash s;
  Some {| manifest_chain_length := length (chain s);
          manifest_latest_hash := latest;
          manifest_total_transactions := length (chain s);
          manifest_genesis_hash := genesis_hash;
          manifest_last_updated := now_isoformat clk |}.

(** [ChronosService._verify_manifest_accuracy] *)
Definition _verify_manifest_accuracy (s : ledger_state Payload) (clk : instant)
    : option bool :=
  current_manifest ← get_manifest s clk;
  let actual_length := length (chain s) in
  if bool_decide (manifest_chain_length current_manifest ≠ actual_length)
  then Some false
  else
    actual_latest ← latest_hash s;
    if bool_decide (manifest_latest_hash current_manifest ≠ actual_latest)
    then Some false
    else Some true.

End Manifest.

(** ** Interleaved coordination *)

(** A [coordinate_operation] call standing at its suspension point. *)
Record waiting_call := {
  waiting_id : string;            (* its coordination_id *)
  waiting_agents : list string    (* its agents argument *)
}.

(** The coordinator and the calls suspended on it. *)
Record coordination := {
  coordinator : TemporalCoordinator;
  waiting : list waiting_call
}.

(** What the event loop runs next; each runs to its next suspension or to
    its return, nothing else running meanwhile. *)
Inductive turn :=
  | Register (ty who : string) (d : pyval) (clk : instant)
      (* a register_event call *)
  | Enter (op : string) (agents : list string) (t0 t1 : instant)
      (* a new coordinate_operation call, up to its sleep or its return False *)
  | Resume (k : nat) (slept : awaited) (t2 : instant).
      (* the k-th suspended call, from its sleep to its return *)

Definition take_turn (s : coordination) (t : turn) : coordination :=
  match t with
  | Register ty who d clk =>
      {| coordinator := snd (register_event (coordinator s) ty who d clk);
         waiting := waiting s |}
  | Enter op agents t0 t1 =>
      match coordinate_begin (coordinator s) op agents t0 t1 with
      | Rejected => s
      | Suspended c =>
          {| coordinator := c;
             waiting := waiting s ++
               [ {| waiting_id := coordination_id op t0; waiting_agents := agents |} ] |}
      end
  | Resume k slept t2 =>
      match waiting s !! k with
      | None => s
      | Some call =>
          {| coordinator :=
               snd (coordinate_finish (coordinator s) (waiting_id call)
                      (waiting_agents call) slept t2);
             waiting := delete k (waiting s) |}
      end
  end.

Definition take_turns (s : coordination) (ts : list turn) : coordination :=
  foldl take_turn s ts.

Definition new_coordination : coordination :=
  {| coordinator := new_coordinator; waiting := [] |}.

(** ** Aggregate checks on proofs *)

(** [ChronosService._verify_all_proofs]: the loop over the proofs left. *)
Fixpoint verify_proofs_loop (e : ProofEngine) (l : list ConsolidationProof) : bool :=
  match l with
  | [] => true
  | proof :: rest =>
      if negb (verify_integrity e (proof_id proof))
      then false
      else verify_proofs_loop e rest
  end.

Definition _verify_all_proofs (e : ProofEngine) : bool :=
  verify_proofs_loop e (proofs e).

(** The [proof_stats] dict of [get_consolidation_report]. *)
Record proof_statistics := {
  total_proofs : nat;
  verified_proofs : nat;
  pending_proofs : nat
}.

Definition proof_stats (e : ProofEngine) : proof_statistics :=
  {| total_proofs := length (proofs e);
     verified_proofs := length (filter (λ p, verified p = true) (proofs e));
     pending_proofs := length (filter (λ p, verified p = false) (proofs e)) |}.


(** A run of [finalize_proof] calls for one id, each with its own file
    list and its own state of the file system. *)
Definition finalize_all (e : ProofEngine) (id : string)
    (calls : list (list string * gmap string file_entry)) : ProofEngine :=
  foldl (λ e '(files, fs), snd (finalize_proof e id files fs)) e calls.

(** ** DLTOperations and ChronosService *)

(** A value of a payload dict: what the service puts into transactions. *)
Local Unset Elimination Schemes.
Inductive doc :=
  | DVal (v : pyval)
  | DBool (b : bool)
  | DDict (kvs : list (string * doc)).
Local Set Elimination Schemes.

(** [d.get(key, default)], the dict [d] given by its items. *)
Definition dict_get (d : list (string * pyval)) (key : string) (default : pyval) : pyval :=
  match list_find (λ kv, kv.1 = key) d with
  | Some (_, kv) => kv.2
  | None => default
  end.

(** How a step on the file system ends: normally, or by raising. *)
Inductive outcome := Done | Failed (e : string).

Definition version : string := "1.0.0".

(** The service with its components; [ctr_integration_enabled] is the flag
    of its [DLTOperations], which shares the service's orchestrator. *)
Record ChronosService := {
  service_status : string;
  blockchain : ledger_state doc;
  temporal_coordinator : TemporalCoordinator;
  proof_engine : ProofEngine;
  ctr_integration_enabled : bool
}.

Definition new_service : ChronosService :=
  {| service_status := "initializing"; blockchain := new_ledger [];
     temporal_coordinator := new_coordinator; proof_engine := {| proofs := [] |};
     ctr_integration_enabled := false |}.

Definition with_blockchain (svc : ChronosService) (s : ledger_state doc) : ChronosService :=
  {| service_status := service_status svc; blockchain := s;
     temporal_coordinator := temporal_coordinator svc;
     proof_engine := proof_engine svc;
     ctr_integration_enabled := ctr_integration_enabled svc |}.

Definition with_coordinator (svc : ChronosService) (c : TemporalCoordinator) : ChronosService :=
  {| service_status := service_status svc; blockchain := blockchain svc;
     temporal_coordinator := c; proof_engine := proof_engine svc;
     ctr_integration_enabled := ctr_integration_enabled svc |}.

Definition with_engine (svc : ChronosService) (e : ProofEngine) : ChronosService :=
  {| service_status := service_status svc; blockchain := blockchain svc;
     temporal_coordinator := temporal_coordinator svc; proof_engine := e;
     ctr_integration_enabled := ctr_integration_enabled svc |}.

Definition with_status (svc : ChronosService) (st : string) : ChronosService :=
  {| service_status := st; blockchain := blockchain svc;
     temporal_coordinator := temporal_coordinator svc;
     proof_engine := proof_engine svc;
     ctr_integration_enabled := ctr_integration_enabled svc |}.

Definition with_ctr (svc : ChronosService) (b : bool) : ChronosService :=
  {| service_status := service_status svc; blockchain := blockchain svc;
     temporal_coordinator := temporal_coordinator svc;
     proof_engine := proof_engine svc; ctr_integration_enabled := b |}.

(** The dict [verify_consolidation_integrity] returns. *)
Record integrity_results := {
  blockchain_integrity : bool;
  temporal_consistency : bool;
  proof_validity : bool;
  manifest_accuracy : bool;
  overall_integrity : bool
}.

Definition results_doc (res : integrity_results) : doc :=
  DDict [ ("blockchain_integrity", DBool (blockchain_integrity res));
          ("temporal_consistency", DBool (temporal_consistency res));
          ("proof_validity", DBool (proof_validity res));
          ("manifest_accuracy", DBool (manifest_accuracy res));
          ("overall_integrity", DBool (overall_integrity res)) ].

(** The dict [get_consolidation_report] returns when nothing raises. *)
Record report := {
  report_id : string;
  report_generated_at : string;
  report_blockchain_statistics : manifest;
  report_temporal_events : nat;
  report_proof_statistics : proof_statistics;
  report_integrity_verification : integrity_results;
  report_chronos_version : string;
  report_status : string;
  report_ctr_integration : bool
}.

Definition ctr_files : list string :=
  [ "contracts/CivicTrustRegistry.sol"; "contracts/CivicTrustRegistryV2.sol" ].

(** The manifest of [update_blockchain_manifest] after [manifest.update]:
    the keys of [get_manifest] followed by the four the service adds, [txs]
    being the transactions of the chain. *)
Definition updated_manifest (svc : ChronosService) (m : manifest)
    (txs : list BlockchainTransaction) : doc :=
  DDict [ ("chain_length", DVal (PyInt (Z.of_nat (manifest_chain_length m))));
          ("latest_hash", DVal (PyStr (manifest_latest_hash m)));
          ("total_transactions", DVal (PyInt (Z.of_nat (manifest_total_transactions m))));
          ("genesis_hash", DVal (PyStr (manifest_genesis_hash m)));
          ("last_updated", DVal (PyStr (manifest_last_updated m)));
          ("consolidation_events",
           DVal (PyInt (Z.of_nat
             (length (filter (λ tx, operation tx = "consolidation_event") txs)))));
          ("temporal_events",
           DVal (PyInt (Z.of_nat (length (events (temporal_coordinator svc))))));
          ("proofs_generated",
           DVal (PyInt (Z.of_nat (length (proofs (proof_engine svc))))));
          ("ctr_integration", DBool (ctr_integration_enabled svc)) ].

Section Service.
Context `{!JsonDumps doc}.

(** [DLTOperations.record_consolidation_event] *)
Definition record_consolidation_event (s : ledger_state doc)
    (event_data : list (string * pyval)) (clk : instant)
    : option (string * ledger_state doc) :=
  '(r, s1) ← create_transaction s "consolidation_event"
    (DDict [ ("event_type", DVal (dict_get event_data "type" (PyStr "unknown")));
             ("files_affected", DVal (dict_get event_data "files" (PyList [])));
             ("operation", DVal (dict_get event_data "operation" (PyStr "")));
             ("agent", DVal (dict_get event_data "agent" (PyStr "unknown")));
             ("metadata", DVal (dict_get event_data "metadata" (PyDict []))) ]) clk;
  '(ok, s2) ← add_transaction s1 r;
  tx ← heap s2 !! r;
  Some (if ok : bool then tx_id tx else "", s2).

(** [DLTOperations.initialize_ctr_integration]; a path exists when the file
    system has an entry for it. *)
Definition initialize_ctr_integration (svc : ChronosService)
    (fs : gmap string file_entry) (clk : instant) : option (bool * ChronosService) :=
  let available_contracts := filter (λ f, is_Some (fs !! f)) ctr_files in
  if bool_decide (available_contracts ≠ [])
  then
    '(r, s1) ← create_transaction (blockchain svc) "ctr_initialization"
      (DDict [ ("contracts", DVal (PyList (PyStr <$> available_contracts)));
               ("integration_status", DVal (PyStr "enabled")) ]) clk;
    '(_, s2) ← add_transaction s1 r;
    Some (true, with_blockchain (with_ctr svc true) s2)
  else Some (false, svc).

(** [ChronosService.initialize]; [mkdirs] is how the three [mkdir] calls end. *)
Definition initialize (svc : ChronosService) (mkdirs : outcome)
    (fs : gmap string file_entry) (clk_ctr clk_genesis : instant)
    : option (bool * ChronosService) :=
  match mkdirs with
  | Failed _ => Some (false, with_status svc "error")
  | Done =>
      '(_, svc1) ← initialize_ctr_integration svc fs clk_ctr;
      svc2 ←
        (if bool_decide (length (chain (blockchain svc1)) = 0)
         then
           '(r, s1) ← create_transaction (blockchain svc1) "genesis"
             (DDict [ ("message", DVal (PyStr "Chronos Service Genesis Block"));
                      ("version", DVal (PyStr version)) ]) clk_genesis;
           '(_, s2) ← add_transaction s1 r;
           Some (with_blockchain svc1 s2)
         else Some svc1);
      Some (true, with_status svc2 "active")
  end.

(** [ChronosService.update_blockchain_manifest]; [written] is how opening
    and writing blockchain/manifest.json ends. The second component is the
    dict handed to the file when the writing completed. *)
Definition update_blockchain_manifest (svc : ChronosService)
    (clk_manifest clk_tx : instant) (written : outcome)
    : option (bool * option doc * ChronosService) :=
  m ← get_manifest (blockchain svc) clk_manifest;
  txs ← chain_objects (blockchain svc);
  let manifest := updated_manifest svc m txs in
  match written with
  | Failed _ => Some (false, None, svc)
  | Done =>
      '(r, s1) ← create_transaction (blockchain svc) "manifest_update"
        (DDict [ ("manifest_hash", DVal (PyStr (calculate_hash (json_dumps manifest)))) ])
        clk_tx;
      '(_, s2) ← add_transaction s1 r;
      Some (true, Some manifest, with_blockchain svc s2)
  end.

(** [ChronosService.generate_consolidation_proof] *)
Definition chronos_generate_consolidation_proof (svc : ChronosService)
    (op : string) (files : list string) (fs : gmap string file_entry)
    (clk_proof clk_tx : instant) : option (string * ChronosService) :=
  let '(proof, e1) :=
    generate_consolidation_proof (proof_engine svc) op files fs clk_proof in
  '(_, s1) ← record_consolidation_event (blockchain svc)
    [ ("type", PyStr "proof_generation"); ("operation", PyStr op);
      ("files", PyList (PyStr <$> files)); ("proof_id", PyStr (proof_id proof));
      ("agent", PyStr "chronos") ] clk_tx;
  Some (proof_id proof, with_blockchain (with_engine svc e1) s1).

(** [ChronosService.verify_consolidation_integrity]; the clock is read for
    the manifest, for [verified_at] and for the transaction, in this order. *)
Definition verify_consolidation_integrity (svc : ChronosService)
    (clk : nat → instant) : option (integrity_results * ChronosService) :=
  '(chain_ok, _) ← verify_consolidation_chain (blockchain svc);
  let events_ok := _verify_temporal_consistency (temporal_coordinator svc) in
  let proofs_ok := _verify_all_proofs (proof_engine svc) in
  manifest_ok ← _verify_manifest_accuracy (blockchain svc) (clk 0);
  let results :=
    {| blockchain_integrity := chain_ok; temporal_consistency := events_ok;
       proof_validity := proofs_ok; manifest_accuracy := manifest_ok;
       overall_integrity := forallb id [chain_ok; events_ok; proofs_ok; manifest_ok] |} in
  '(r, s1) ← create_transaction (blockchain svc) "integrity_verification"
    (DDict [ ("results", results_doc results);
             ("verified_at", DVal (PyStr (now_isoformat (clk 1)))) ]) (clk 2);
  '(_, s2) ← add_transaction s1 r;
  Some (results, with_blockchain svc s2).

(** The loop of [coordinate_consolidation_phase] over the operations left,
    the [i]-th clock reading being the next one. *)
Fixpoint record_operations (s : ledger_state doc) (phase event_id : string)
    (operations : list (list (string * pyval))) (clk : nat → instant) (i : nat)
    : option (ledger_state doc) :=
  match operations with
  | [] => Some s
  | operation :: rest =>
      '(_, s1) ← record_consolidation_event s
        [ ("type", PyStr "phase_operation"); ("phase", PyStr phase);
          ("operation", dict_get operation "name" (PyStr "unknown"));
          ("files", dict_get operation "files" (PyList []));
          ("agent", dict_get operation "agent" (PyStr "unknown"));
          ("metadata", PyDict [("event_id", PyStr event_id)]) ] (clk i);
      record_operations s1 phase event_id rest clk (S i)
  end.

(** [ChronosService.coordinate_consolidation_phase], nothing running while
    its [coordinate_operation] call is suspended. *)
Definition coordinate_consolidation_phase (svc : ChronosService) (phase : string)
    (agents : list string) (operations : list (list (string * pyval)))
    (clk : nat → instant) (slept : awaited) : option (bool * ChronosService) :=
  let '(event_id, c1) :=
    register_event (temporal_coordinator svc) "phase_start" "chronos"
      (PyDict [ ("phase", PyStr phase); ("agents", PyList (PyStr <$> agents));
                ("operations", PyList (PyDict <$> operations)) ]) (clk 0) in
  let '(coordination_success, c2) :=
    coordinate_operation c1 ("consolidation_phase_" +:+ phase) agents
      (clk 1) (clk 2) slept (clk 3) in
  if negb coordination_success
  then Some (false, with_coordinator svc c2)
  else
    s' ← record_operations (blockchain svc) phase event_id operations clk 4;
    let '(_, c3) :=
      register_event c2 "phase_complete" "chronos"
        (PyDict [ ("phase", PyStr phase); ("status", PyStr "success") ])
        (clk (4 + length operations)) in
    Some (true, with_coordinator (with_blockchain svc s') c3).

(** [ChronosService.get_consolidation_report]; [written] is how writing the
    report file ends, and the error message is returned when it raises. *)
Definition get_consolidation_report (svc : ChronosService) (clk : nat → instant)
    (written : outcome) : option ((report + string) * ChronosService) :=
  blockchain_stats ← get_manifest (blockchain svc) (clk 0);
  let events := get_event_timeline (temporal_coordinator svc) None in
  let stats := proof_stats (proof_engine svc) in
  '(integrity_results, svc1) ← verify_consolidation_integrity svc (λ i, clk (1 + i));
  let rep :=
    {| report_id := SHA256.hexdigest ("report_" +:+ time_repr (clk 4));
       report_generated_at := now_isoformat (clk 5);
       report_blockchain_statistics := blockchain_stats;
       report_temporal_events := length events;
       report_proof_statistics := stats;
       report_integrity_verification := integrity_results;
       report_chronos_version := version;
       report_status := service_status svc1;
       report_ctr_integration := ctr_integration_enabled svc1 |} in
  match written with
  | Done => Some (inl rep, svc1)
  | Failed e => Some (inr e, svc1)
  end.

End Service.

(** ** Predicates on ledger states *)

Section LedgerPredicates.
Context {Payload : Type}.
Implicit Types (s : ledger_state Payload).

(** Every entry of the chain is an object of the heap. *)
Definition chain_live s : Prop := Forall (λ r, r < length (heap s)) (chain s).

(** The linkage of the stored transactions, read through the heap. *)
Definition linked s : Prop :=
  ∀ i r, chain s !! i = Some r →
    ∃ tx, heap s !! r = Some tx ∧
      match i with
      | O => previous_hash tx = genesis_hash
      | S j => ∃ r' tx', chain s !! j = Some r' ∧ heap s !! r' = Some tx' ∧
                         previous_hash tx = data_hash tx'
      end.

End LedgerPredicates.

(** [h'] has every object of [h], with the same two hash fields. *)
Definition hashes_kept (h h' : list BlockchainTransaction) : Prop :=
  ∀ r tx, h !! r = Some tx →
    ∃ tx', h' !! r = Some tx' ∧ data_hash tx' = data_hash tx ∧
           previous_hash tx' = previous_hash tx.

(** ** Predicates on coordinator states *)

(** The sequence numbers stored are 1, 2, ... up to the counter. *)
Definition dense (c : TemporalCoordinator) : Prop :=
  sequence <$> events c = seq 1 (sequence_counter c).

(** ** Sample inputs *)

Definition clock0 : instant :=
  {| time_repr := "1700000000.25"; time_millis := 1700000000250;
     time_secs := 1700000000; now_isoformat := "2023-11-14T22:13:20.250000" |}.

Definition clock1 : instant :=
  {| time_repr := "1700000001.5"; time_millis := 1700000001500;
     time_secs := 1700000001; now_isoformat := "2023-11-14T22:13:21.500000" |}.

Definition dquote : string := String "034"%char EmptyString.

(** [json.dumps({k: v})] for a key and a value that need no escaping. *)
Definition json_object (k v : string) : string :=
  "{" +:+ dquote +:+ k +:+ dquote +:+ ": " +:+ dquote +:+ v +:+ dquote +:+ "}".

(** [json.dumps({"message": "Genesis"})] *)
Definition genesis_payload : string := json_object "message" "Genesis".

(** A genesis transaction and three more, each added as soon as created. *)
Definition four_transactions : list (ledger_call string) :=
  [ CreateTransaction "genesis" genesis_payload clock0; AddTransaction 0;
    CreateTransaction "consolidation_event" (json_object "agent" "ananke") clock1;
    AddTransaction 1;
    CreateTransaction "manifest_update" (json_object "manifest_hash" "0f3a") clock1;
    AddTransaction 2;
    CreateTransaction "integrity_verification" "{}" clock1; AddTransaction 3 ].

(** [obj.previous_hash = v] by a holder of the object [r]. *)
Definition assign_previous_hash {Payload : Type} (s : ledger_state Payload)
    (r : ref) (v : string) : ledger_state Payload :=
  {| heap := alter (λ tx,
                {| tx_id := tx_id tx; timestamp := timestamp tx;
                   operation := operation tx; data_hash := data_hash tx;
                   previous_hash := v; merkle_root := merkle_root tx;
                   status := status tx |}) r (heap s);
     chain := chain s;
     pending_transactions := pending_transactions s |}.

(** The ledger after [four_transactions], with the link at [i] corrupted. *)
Definition corrupted_ledger (i : ref) : option (ledger_state string) :=
  s ← run (new_ledger []) four_transactions;
  Some (assign_previous_hash s i "corrupted").

(** A first call on agents A and B, standing at its suspension point. *)
Definition first_call_waiting : entry :=
  coordinate_begin new_coordinator "merge" ["A"; "B"] clock0 clock0.

(** Three registrations by three different agents. *)
Definition three_registrations : list registration :=
  [ ("phase_start", "chronos", PyDict [("phase", PyStr "one")], clock0);
    ("scan", "ananke", PyDict [], clock0);
    ("report", "elizaos", PyDict [("files", PyList [PyStr "a.py"])], clock1) ].

(** One file, and an engine holding a proof generated over it. *)
Definition one_file (bytes : string) : gmap string file_entry :=
  {[ "a.py" := Content bytes ]}.

Definition engine_with_proof : ConsolidationProof * ProofEngine :=
  generate_consolidation_proof {| proofs := [] |} "merge" ["a.py"; "gone.py"]
    (one_file "x = 1") clock0.

Definition sample_engine : ProofEngine := snd engine_with_proof.
Definition sample_proof_id : string := proof_id (fst engine_with_proof).

(** A ledger holding one confirmed transaction. *)
Definition one_transaction_ledger : ledger_state string :=
  {| heap := [ {| tx_id := "a1"; timestamp := "2023-11-14T22:13:20";
                  operation := "genesis"; data_hash := "d0";
                  previous_hash := genesis_hash; merkle_root := "d0";
                  status := "confirmed" |} ];
     chain := [0]; pending_transactions := [] |}.

(** ** Predicates on interleaved coordination *)


(** The events are in non-decreasing order of sequence number. *)
Definition by_sequence (l : list TemporalEvent) : Prop :=
  StronglySorted (λ x y, sequence x ≤ sequence y) l.

(** ** Ledger states after an accepted transaction *)

Section Appended.
Context {Payload : Type} `{!JsonDumps Payload}.
Implicit Types (s : ledger_state Payload).

(** The transaction [create_transaction] makes on [s], once confirmed. *)
Definition confirmed_transaction s (op : string) (d : Payload) (clk : instant)
    (prev : string) : BlockchainTransaction :=
  {| tx_id := calculate_hash (op +:+ "_" +:+ time_repr clk +:+ "_" +:+ json_dumps d);
     timestamp := now_isoformat clk; operation := op;
     data_hash := calculate_hash (json_dumps_sorted d);
     previous_hash := prev;
     merkle_root := calculate_hash (json_dumps d);
     status := "confirmed" |}.

(** The ledger after a transaction was created on [s] and added. *)
Definition appended s (tx : BlockchainTransaction) : ledger_state Payload :=
  {| heap := heap s ++ [tx]; chain := chain s ++ [length (heap s)];
     pending_transactions := pending_transactions s |}.

End Appended.

(** ** More sample inputs *)

Definition empty_engine : ProofEngine := {| proofs := [] |}.

(** Two proofs generated for the same operation at the same clock reading:
    they carry the same id. *)
Definition engine_with_duplicates : ProofEngine :=
  snd (generate_consolidation_proof
         (snd (generate_consolidation_proof empty_engine "merge" ["a.py"]
                 (one_file "x = 1") clock0))
         "merge" ["b.py"] (one_file "x = 1") clock0).





(** A few turns of the event loop: two calls overlap on agent B. *)
Definition overlapping_turns : list turn :=
  [ Enter "merge" ["A"; "B"] clock0 clock0;
    Register "scan" "ananke" (PyDict []) clock0;
    Enter "scan" ["B"; "C"] clock1 clock1;
    Enter "report" ["C"] clock1 clock1;
    Resume 0 Completed clock1 ].

(** A new ledger next to one hand-made pending transaction. *)
Definition one_pending_ledger : ledger_state string :=
  new_ledger [ {| tx_id := "a1"; timestamp := "2023-11-14T22:13:20";
                  operation := "genesis"; data_hash := "d0";
                  previous_hash := genesis_hash; merkle_root := "d0";
                  status := "pending" |} ].

(** ** A JSON encoder for plain values *)

(** [json.dumps] on values whose strings need no escaping: the separators
    are [", "] and [": "], and [sort_keys] orders the items of every dict
    by key. [fuel] bounds the nesting depth. *)
Definition quoted (s : string) : string := dquote +:+ s +:+ dquote.

Fixpoint joined (parts : list string) : string :=
  match parts with
  | [] => ""
  | [p] => p
  | p :: rest => p +:+ ", " +:+ joined rest
  end.

Fixpoint insert_item {A} (kv : string * A) (l : list (string * A)) : list (string * A) :=
  match l with
  | [] => [kv]
  | kv' :: rest =>
      if String.leb kv.1 kv'.1 then kv :: kv' :: rest else kv' :: insert_item kv rest
  end.

Definition items {A} (sort_keys : bool) (kvs : list (string * A)) : list (string * A) :=
  if sort_keys then foldr insert_item [] kvs else kvs.

Fixpoint dumps_pyval (fuel : nat) (sort_keys : bool) (v : pyval) : string :=
  match fuel with
  | O => ""
  | S fuel' =>
      match v with
      | PyStr s => quoted s
      | PyInt z => pretty z
      | PyList l => "[" +:+ joined (dumps_pyval fuel' sort_keys <$> l) +:+ "]"
      | PyDict kvs =>
          "{" +:+ joined ((λ kv, quoted kv.1 +:+ ": " +:+ dumps_pyval fuel' sort_keys kv.2)
                          <$> items sort_keys kvs) +:+ "}"
      end
  end.

Fixpoint dumps_doc (fuel : nat) (sort_keys : bool) (d : doc) : string :=
  match fuel with
  | O => ""
  | S fuel' =>
      match d with
      | DVal v => dumps_pyval fuel' sort_keys v
      | DBool b => if b then "true" else "false"
      | DDict kvs =>
          "{" +:+ joined ((λ kv, quoted kv.1 +:+ ": " +:+ dumps_doc fuel' sort_keys kv.2)
                          <$> items sort_keys kvs) +:+ "}"
      end
  end.

#[export] Instance plain_json : JsonDumps doc :=
  {| json_dumps := dumps_doc 32 false; json_dumps_sorted := dumps_doc 32 true |}.

(** A clock that always reads the same. *)
Definition still (clk : instant) : nat → instant := λ _, clk.

(** A service whose file system holds one of the CTR contracts. *)
Definition with_contract : gmap string file_entry :=
  {[ "contracts/CivicTrustRegistry.sol" := Content "contract CivicTrustRegistry {}" ]}.

(** Two operations of a phase, as the callers write them. *)
Definition two_operations : list (list (string * pyval)) :=
  [ [ ("name", PyStr "merge"); ("files", PyList [PyStr "a.py"]); ("agent", PyStr "ananke") ];
    [ ("name", PyStr "scan") ] ].

(** * The hash function on known inputs *)

Example sha256_empty :
  SHA256.hexdigest "" =
  "e3b0c44298fc1c149afbf4c8996fb92427ae41e4649b934ca495991b7852b855".
Proof. vm_compute. reflexivity. Qed.

Example sha256_abc :
  SHA256.hexdigest "abc" =
  "ba7816bf8f01cfea414140de5dae2223b00361a396177a9cb410ff61f20015ad".
Proof. vm_compute. reflexivity. Qed.

Example sha256_two_blocks :
  SHA256.hexdigest "abcdbcdecdefdefgefghfghighijhijkijkljklmklmnlmnomnopnopq" =
  "248d6a61d20638b8e5c026930c3e6039a33ce45964ff2167f6ecedd419db06c1".
Proof. vm_compute. reflexivity. Qed.

(** * The merkle reduction *)

Lemma merkle_level_length (hashes : list string) :
  2 * length (merkle_level hashes) ≤ length hashes + 1.
Proof.
  assert (∀ n (hs : list string), length hs ≤ n →
            2 * length (merkle_level hs) ≤ length hs + 1) as Hn.
  { induction n as [|n IH]; intros hs Hlen.
    - destruct hs; [simpl; lia|simpl in Hlen; lia].
    - destruct hs as [|h1 [|h2 rest]]; simpl; [lia..|].
      simpl in Hlen. specialize (IH rest). lia. }
  by apply (Hn (length hashes)).
Qed.

(** The fuel [calculate_merkle_root] gives the loop is enough: it stops
    with at most one hash left, as the [while] does. *)
Lemma merkle_reduce_terminates (fuel : nat) : ∀ hashes : list string,
  length hashes ≤ fuel → length (merkle_reduce fuel hashes) ≤ 1.
Proof.
  induction fuel as [|fuel IH]; intros hashes Hlen; simpl.
  { lia. }
  case_bool_decide as Hmany; [|lia].
  apply IH. pose proof (merkle_level_length hashes). lia.
Qed.

Lemma calculate_merkle_root_pair (t1 t2 : string) :
  calculate_merkle_root [t1; t2] =
  calculate_hash (calculate_hash t1 +:+ calculate_hash t2).
Proof. reflexivity. Qed.

Lemma calculate_merkle_root_three (t1 t2 t3 : string) :
  calculate_merkle_root [t1; t2; t3] =
  calculate_hash (calculate_hash (calculate_hash t1 +:+ calculate_hash t2)
                  +:+ calculate_hash (calculate_hash t3 +:+ calculate_hash t3)).
Proof. reflexivity. Qed.

(** * The ledger *)

Section LedgerFacts.
Context {Payload : Type} `{!JsonDumps Payload}.
Implicit Types (s : ledger_state Payload) (r : ref) (tx : BlockchainTransaction).

Lemma latest_hash_live s : chain_live s → is_Some (latest_hash s).
Proof.
  intros Hlive. unfold latest_hash.
  destruct (last (chain s)) as [r|] eqn:Hlast; [|by eexists].
  apply last_Some in Hlast as [l' Hl'].
  unfold chain_live in Hlive. rewrite Hl' in Hlive.
  apply Forall_app in Hlive as [_ Hr]. apply Forall_inv in Hr.
  apply lookup_lt_is_Some_2 in Hr as [tx Htx].
  rewrite Htx. by eexists.
Qed.

Lemma merkle_root_single (t : string) :
  calculate_merkle_root [t] = calculate_hash t.
Proof. reflexivity. Qed.

Lemma create_transaction_Some s op (d : Payload) clk :
  chain_live s →
  ∃ prev,
    latest_hash s = Some prev ∧
    create_transaction s op d clk =
      Some (length (heap s),
            {| heap := heap s ++
                 [ {| tx_id := calculate_hash (op +:+ "_" +:+ time_repr clk +:+ "_" +:+ json_dumps d);
                      timestamp := now_isoformat clk; operation := op;
                      data_hash := calculate_hash (json_dumps_sorted d);
                      previous_hash := prev;
                      merkle_root := calculate_hash (json_dumps d);
                      status := "pending" |} ];
               chain := chain s;
               pending_transactions := pending_transactions s |}).
Proof.
  intros [prev Hprev]%latest_hash_live. exists prev. split; [done|].
  unfold create_transaction. rewrite Hprev. reflexivity.
Qed.

(** What [_validate_transaction] accepts. *)
Lemma validate_true s tx :
  _validate_transaction s tx = Some true ↔
  tx_id tx ≠ "" ∧ timestamp tx ≠ "" ∧ latest_hash s = Some (previous_hash tx).
Proof.
  unfold _validate_transaction.
  destruct (decide (tx_id tx = "")) as [Hid|Hid].
  { rewrite (bool_decide_eq_true_2 _ Hid). simpl.
    split; [discriminate|]. by intros [? _]. }
  rewrite (bool_decide_eq_false_2 _ Hid). simpl.
  destruct (decide (timestamp tx = "")) as [Hts|Hts].
  { rewrite (bool_decide_eq_true_2 _ Hts).
    split; [discriminate|]. by intros (_ & ? & _). }
  rewrite (bool_decide_eq_false_2 _ Hts).
  destruct (latest_hash s) as [e|]; simpl.
  - case_bool_decide as Hprev.
    + split; [discriminate|]. intros (_ & _ & [= ->]). exfalso. by apply Hprev.
    + split; [|done]. intros _. split; [done|]. split; [done|].
      destruct (decide (previous_hash tx = e)) as [->|Hne]; [done|].
      by destruct Hprev.
  - split; [discriminate|]. by intros (_ & _ & ?).
Qed.

Lemma validate_live s tx : chain_live s → is_Some (_validate_transaction s tx).
Proof.
  intros [e He]%latest_hash_live. unfold _validate_transaction. rewrite He. simpl.
  destruct (_ || _); [by eexists|]. case_bool_decide; by eexists.
Qed.

(** The two outcomes of [add_transaction]. *)
Lemma add_transaction_unfold s r tx ok :
  heap s !! r = Some tx →
  _validate_transaction s tx = Some ok →
  add_transaction s r =
    Some (ok,
          {| heap := <[r := set_status tx (if ok then "confirmed" else "rejected")]> (heap s);
             chain := if ok then chain s ++ [r] else chain s;
             pending_transactions := pending_transactions s |}).
Proof.
  intros Hr Hok. unfold add_transaction. rewrite Hr. simpl. rewrite Hok. simpl.
  by destruct ok.
Qed.

Lemma add_transaction_live s r :
  chain_live s → r < length (heap s) → is_Some (add_transaction s r).
Proof.
  intros Hlive [tx Htx]%lookup_lt_is_Some_2.
  destruct (validate_live s tx Hlive) as [ok Hok].
  rewrite (add_transaction_unfold _ _ _ _ Htx Hok). by eexists.
Qed.

Lemma hashes_kept_set_status (h : list BlockchainTransaction) r tx st :
  h !! r = Some tx → hashes_kept h (<[r := set_status tx st]> h).
Proof.
  intros Hr r0 tx0 Hr0. destruct (decide (r0 = r)) as [->|Hne].
  - exists (set_status tx st). rewrite list_lookup_insert_eq.
    + split; [done|]. rewrite Hr in Hr0. by injection Hr0 as ->.
    + by eapply lookup_lt_Some.
  - exists tx0. by rewrite list_lookup_insert_ne.
Qed.

Lemma hashes_kept_alloc (h : list BlockchainTransaction) tx :
  hashes_kept h (h ++ [tx]).
Proof.
  intros r0 tx0 Hr0. exists tx0. split; [|done].
  by apply lookup_app_l_Some.
Qed.

Lemma hashes_kept_length h h' r :
  hashes_kept h h' → r < length h → r < length h'.
Proof.
  intros Hk [tx Htx]%lookup_lt_is_Some_2.
  destruct (Hk _ _ Htx) as (tx' & Htx' & _). by eapply lookup_lt_Some.
Qed.

Lemma chain_live_kept s s' :
  hashes_kept (heap s) (heap s') → chain s' = chain s → chain_live s → chain_live s'.
Proof.
  intros Hk Hc Hlive. unfold chain_live. rewrite Hc.
  eapply Forall_impl; [exact Hlive|]. intros r. by apply hashes_kept_length.
Qed.

Lemma linked_kept s s' :
  hashes_kept (heap s) (heap s') → chain s' = chain s → linked s → linked s'.
Proof.
  intros Hk Hc Hl i r Hi. rewrite Hc in Hi.
  destruct (Hl i r Hi) as (tx & Htx & Hlink).
  destruct (Hk _ _ Htx) as (tx' & Htx' & Hd & Hp).
  exists tx'. split; [done|]. destruct i as [|j]; [congruence|].
  destruct Hlink as (r' & p & Hj & Hr' & Hprev).
  destruct (Hk _ _ Hr') as (p' & Hp' & Hd' & _).
  exists r', p'. rewrite Hc. repeat split; [done..|congruence].
Qed.

Lemma linked_snoc s s' r tx :
  hashes_kept (heap s) (heap s') → chain s' = chain s ++ [r] →
  heap s !! r = Some tx → latest_hash s = Some (previous_hash tx) →
  linked s → linked s'.
Proof.
  intros Hk Hc Hr Hprev Hl i r0 Hi. rewrite Hc in Hi.
  apply lookup_snoc_Some in Hi as [[Hlt Hi]|[-> <-]].
  - destruct (Hl i r0 Hi) as (tx0 & Htx0 & Hlink).
    destruct (Hk _ _ Htx0) as (tx0' & Htx0' & Hd & Hp).
    exists tx0'. split; [done|]. destruct i as [|j]; [congruence|].
    destruct Hlink as (r' & p & Hj & Hr' & Hpp).
    destruct (Hk _ _ Hr') as (p' & Hp' & Hd' & _).
    exists r', p'. rewrite Hc. split; [|split; [done|congruence]].
    apply lookup_app_l_Some. done.
  - destruct (Hk _ _ Hr) as (tx' & Htx' & Hd & Hp).
    exists tx'. split; [done|].
    unfold latest_hash in Hprev. rewrite last_lookup in Hprev.
    destruct (length (chain s)) as [|j] eqn:Hlen; simpl in Hprev.
    + apply nil_length_inv in Hlen. rewrite Hlen in Hprev. simpl in Hprev. congruence.
    + destruct (chain s !! j) as [r'|] eqn:Hj.
      2:{ apply lookup_ge_None in Hj. lia. }
      destruct (heap s !! r') as [p|] eqn:Hr'; simpl in Hprev; [|done].
      destruct (Hk _ _ Hr') as (p' & Hp' & Hd' & _).
      exists r', p'. rewrite Hc. split; [by apply lookup_app_l_Some|].
      split; [done|]. congruence.
Qed.

(** Both operations keep the chain live and linked. *)
Lemma create_transaction_inv s op (d : Payload) clk :
  chain_live s → linked s →
  ∃ r s', create_transaction s op d clk = Some (r, s') ∧
          length (heap s') = S (length (heap s)) ∧ chain_live s' ∧ linked s'.
Proof.
  intros Hlive Hl.
  destruct (create_transaction_Some s op d clk Hlive) as (prev & _ & ->).
  eexists _, _. split; [done|]. simpl. split; [rewrite length_app; simpl; lia|].
  split.
  - eapply (chain_live_kept s); [|done..]. apply hashes_kept_alloc.
  - eapply (linked_kept s); [|done..]. apply hashes_kept_alloc.
Qed.

Lemma add_transaction_inv s r :
  chain_live s → linked s → r < length (heap s) →
  ∃ ok s', add_transaction s r = Some (ok, s') ∧
           length (heap s') = length (heap s) ∧ chain_live s' ∧ linked s'.
Proof.
  intros Hlive Hl Hr. pose proof Hr as [tx Htx]%lookup_lt_is_Some_2.
  destruct (validate_live s tx Hlive) as [ok Hok].
  rewrite (add_transaction_unfold _ _ _ _ Htx Hok).
  eexists _, _. split; [done|]. simpl. split; [by rewrite length_insert|].
  pose proof (hashes_kept_set_status (heap s) r tx
                (if ok then "confirmed" else "rejected") Htx) as Hk.
  destruct ok.
  - split.
    + unfold chain_live. simpl. apply Forall_app. split.
      * eapply Forall_impl; [exact Hlive|]. intros r0. simpl. by rewrite length_insert.
      * apply Forall_singleton. by rewrite length_insert.
    + apply validate_true in Hok as (_ & _ & Hprev).
      by eapply (linked_snoc s); [exact Hk|..].
  - split.
    + by eapply (chain_live_kept s); [exact Hk|..].
    + by eapply (linked_kept s); [exact Hk|..].
Qed.

Lemma run_inv (calls : list (ledger_call Payload)) : ∀ s,
  chain_live s → linked s → calls_live (length (heap s)) calls = true →
  ∃ s', run s calls = Some s' ∧ chain_live s' ∧ linked s'.
Proof.
  induction calls as [|c calls IH]; intros s Hlive Hl Hcalls; simpl.
  { by exists s. }
  destruct c as [op d clk|r]; simpl in Hcalls |- *.
  - destruct (create_transaction_inv s op d clk Hlive Hl)
      as (r & s' & -> & Hlen & Hlive' & Hl'). simpl.
    apply IH; [done..|]. by rewrite Hlen.
  - apply andb_true_iff in Hcalls as [Hr%bool_decide_eq_true Hcalls].
    destruct (add_transaction_inv s r Hlive Hl Hr)
      as (ok & s' & -> & Hlen & Hlive' & Hl'). simpl.
    apply IH; [done..|]. by rewrite Hlen.
Qed.

End LedgerFacts.

Section LedgerClaims.
Context {Payload : Type} `{!JsonDumps Payload}.
Implicit Types (s : ledger_state Payload) (r : ref) (tx : BlockchainTransaction).

(** C1. Hash-chain linkage. Start from a fresh orchestrator, whatever
    transaction objects [objs] the process already holds, and make any
    sequence of [create_transaction] and [add_transaction] calls, each
    [add_transaction] on an object that exists when it is called. The calls
    all return, and in the resulting chain the transaction at index 0 has
    [previous_hash] equal to the genesis sentinel, which is 64 characters
    ['0'], and the transaction at every index [i > 0] has [previous_hash]
    equal to the [data_hash] of the transaction at index [i - 1]. *)
Theorem hash_chain_linkage (objs : list BlockchainTransaction)
    (calls : list (ledger_call Payload)) :
  calls_live (length objs) calls = true →
  ∃ s, run (new_ledger objs) calls = Some s ∧
    (∀ i r, chain s !! i = Some r →
       ∃ tx, heap s !! r = Some tx ∧
         match i with
         | O => previous_hash tx = genesis_hash
         | S j => ∃ r' tx', chain s !! j = Some r' ∧ heap s !! r' = Some tx' ∧
                            previous_hash tx = data_hash tx'
         end) ∧
    genesis_hash = String.string_of_list_ascii (replicate 64 "0"%char).
Proof.
  intros Hcalls.
  destruct (run_inv calls (new_ledger objs)) as (s & Hrun & _ & Hl).
  - apply Forall_nil_2.
  - intros i r Hi. simpl in Hi. by rewrite lookup_nil in Hi.
  - done.
  - exists s. split; [done|]. split; [exact Hl|reflexivity].
Qed.

(** C3, as the code has it. For every payload, the [merkle_root] of the
    transaction returned by [create_transaction] is the hash of the one
    serialised payload, [hash(json.dumps(payload))]: with a single leaf the
    reduction loop, which runs only while more than one hash is left, is
    never entered, and nothing is duplicated. *)
Theorem create_transaction_merkle_root s op (d : Payload) clk :
  chain_live s →
  ∃ r s' tx, create_transaction s op d clk = Some (r, s') ∧
             heap s' !! r = Some tx ∧
             merkle_root tx = calculate_hash (json_dumps d).
Proof.
  intros Hlive.
  destruct (create_transaction_Some s op d clk Hlive) as (prev & _ & ->).
  eexists _, _, _. split; [done|]. simpl. split.
  - by apply list_lookup_middle.
  - done.
Qed.

(** C10. [create_transaction] does not mutate the ledger: the chain and
    the pending list are the same after the call, every object that existed
    keeps all its fields, and the reference returned is to a new object,
    pending, whose [previous_hash] was read from the tail. Of the two
    operations only [add_transaction] can change the chain, and then by
    appending its argument. *)
Theorem create_transaction_frame s op (d : Payload) clk :
  chain_live s →
  (∃ r s' tx, create_transaction s op d clk = Some (r, s') ∧
     chain s' = chain s ∧
     pending_transactions s' = pending_transactions s ∧
     (∀ r0 tx0, heap s !! r0 = Some tx0 → heap s' !! r0 = Some tx0) ∧
     heap s !! r = None ∧ heap s' !! r = Some tx ∧
     status tx = "pending" ∧ latest_hash s = Some (previous_hash tx)) ∧
  (∀ c s', perform s c = Some s' → chain s' ≠ chain s →
     ∃ r, c = AddTransaction r ∧ chain s' = chain s ++ [r]).
Proof.
  intros Hlive. split.
  - destruct (create_transaction_Some s op d clk Hlive) as (prev & Hprev & ->).
    eexists _, _, _. split; [done|]. simpl.
    split; [done|]. split; [done|]. split.
    { intros r0 tx0 Hr0. by apply lookup_app_l_Some. }
    split; [by apply lookup_ge_None|].
    split; [by apply list_lookup_middle|]. done.
  - intros [op' d' clk'|r] s' Hperf Hne; simpl in Hperf.
    + destruct (create_transaction_Some s op' d' clk' Hlive) as (prev & _ & Heq).
      rewrite Heq in Hperf. simpl in Hperf. injection Hperf as <-. done.
    + exists r. split; [done|].
      unfold add_transaction in Hperf.
      destruct (heap s !! r) as [tx|]; [|done]. simpl in Hperf.
      destruct (_validate_transaction s tx) as [[]|]; simpl in Hperf; [| |done].
      * by injection Hperf as <-.
      * injection Hperf as <-. done.
Qed.

End LedgerClaims.

Section VerifyFacts.
Implicit Types (txs whole rest : list BlockchainTransaction).

Lemma drop_cons_inv whole i tx rest :
  drop i whole = tx :: rest → whole !! i = Some tx ∧ drop (S i) whole = rest.
Proof.
  intros Hd.
  assert (whole !! i = Some tx) as Hi.
  { rewrite <- (Nat.add_0_r i), <- lookup_drop, Hd. done. }
  split; [done|]. rewrite (drop_S _ _ _ Hi) in Hd. by injection Hd.
Qed.

Lemma link_ok_false_lt txs k : link_ok txs k = false → k < length txs.
Proof.
  unfold link_ok. destruct (txs !! k) eqn:Hk; [|done].
  intros _. by eapply lookup_lt_Some.
Qed.

(** One turn of the loop, on a link that holds and on one that does not. *)
Lemma verify_loop_step_ok whole i tx rest :
  whole !! i = Some tx → link_ok whole i = true →
  verify_loop whole i (tx :: rest) = verify_loop whole (S i) rest.
Proof.
  intros Hi Hok. unfold link_ok in Hok. rewrite Hi in Hok.
  destruct i as [|j]; simpl.
  - apply bool_decide_eq_true in Hok.
    by rewrite bool_decide_eq_false_2 by (by intros []).
  - destruct (whole !! j) as [before|]; [|done].
    apply bool_decide_eq_true in Hok.
    by rewrite bool_decide_eq_false_2 by (by intros []).
Qed.

Lemma verify_loop_step_break whole i tx rest :
  whole !! i = Some tx → link_ok whole i = false →
  verify_loop whole i (tx :: rest) = (false, [break_message i]).
Proof.
  intros Hi Hok. unfold link_ok in Hok. rewrite Hi in Hok.
  destruct i as [|j]; simpl.
  - apply bool_decide_eq_false in Hok. by rewrite bool_decide_eq_true_2.
  - destruct (whole !! j) as [before|] eqn:Hj.
    + apply bool_decide_eq_false in Hok. by rewrite bool_decide_eq_true_2.
    + apply lookup_ge_None in Hj. apply lookup_lt_Some in Hi. lia.
Qed.

Lemma verify_loop_ok whole : ∀ rest i,
  drop i whole = rest →
  (∀ k, i ≤ k → link_ok whole k = true) →
  verify_loop whole i rest = (true, [LogInfo "Consolidation chain verified successfully"]).
Proof.
  induction rest as [|tx rest IH]; intros i Hd Hall; [done|].
  apply drop_cons_inv in Hd as [Hi Hd].
  rewrite (verify_loop_step_ok _ _ _ _ Hi) by (by apply Hall).
  apply IH; [done|]. intros k Hk. apply Hall. lia.
Qed.

Lemma verify_loop_break whole k : link_ok whole k = false → ∀ rest i,
  drop i whole = rest → i ≤ k →
  (∀ k', i ≤ k' → k' < k → link_ok whole k' = true) →
  verify_loop whole i rest = (false, [break_message k]).
Proof.
  intros Hk. induction rest as [|tx rest IH]; intros i Hd Hik Hbelow.
  - apply link_ok_false_lt in Hk.
    apply (f_equal length) in Hd. rewrite length_drop in Hd. simpl in Hd. lia.
  - apply drop_cons_inv in Hd as [Hi Hd].
    destruct (decide (i = k)) as [->|Hne].
    + by apply verify_loop_step_break.
    + rewrite (verify_loop_step_ok _ _ _ _ Hi) by (apply Hbelow; lia).
      apply IH; [done|lia|]. intros k' ? ?. apply Hbelow; lia.
Qed.

Lemma spec_verify_chain_None txs :
  spec_verify_chain txs = None ↔ ∀ k, link_ok txs k = true.
Proof.
  unfold spec_verify_chain. rewrite fmap_None, list_find_None, Forall_forall.
  split.
  - intros Hall k. destruct (link_ok txs k) eqn:Hk; [done|].
    exfalso. apply (Hall k); [|done].
    apply elem_of_seq. pose proof (link_ok_false_lt _ _ Hk). lia.
  - intros Hall k _. rewrite Hall. done.
Qed.

Lemma spec_verify_chain_Some txs i :
  spec_verify_chain txs = Some i ↔
  link_ok txs i = false ∧ ∀ k, k < i → link_ok txs k = true.
Proof.
  unfold spec_verify_chain. rewrite fmap_Some. split.
  - intros [[j x] [Hfind ->]]. simpl.
    apply list_find_Some in Hfind as (Hj & Hx & Hbelow).
    apply lookup_seq in Hj as [-> Hlt]. simpl in *. split; [done|].
    intros k Hk. destruct (link_ok txs k) eqn:Hlk; [done|].
    exfalso. apply (Hbelow k k); [|done..].
    apply lookup_seq. pose proof (link_ok_false_lt _ _ Hlk). done.
  - intros [Hi Hbelow]. exists (i, i). split; [|done].
    apply list_find_Some. pose proof (link_ok_false_lt _ _ Hi) as Hlt.
    split; [by apply lookup_seq|]. split; [done|].
    intros j y [-> _]%lookup_seq Hj. simpl. rewrite Hbelow by done. done.
Qed.

(** A link is decided by the entries up to its own index. *)
Lemma link_ok_take txs txs' i k :
  take (S i) txs' = take (S i) txs → k ≤ i → link_ok txs' k = link_ok txs k.
Proof.
  intros Ht Hk.
  assert (∀ j, j ≤ i → txs' !! j = txs !! j) as Hsame.
  { intros j Hj. rewrite <- (lookup_take_lt txs' (S i)), <- (lookup_take_lt txs (S i)) by lia.
    by rewrite Ht. }
  unfold link_ok. rewrite (Hsame k Hk). destruct k as [|j]; [done|].
  by rewrite (Hsame j) by lia.
Qed.

End VerifyFacts.

(** ** The chain verifier against the spec's [verify_chain] *)

Section VerifyClaims.
Context {Payload : Type}.
Implicit Types (s : ledger_state Payload) (txs : list BlockchainTransaction).

Lemma verify_consolidation_chain_valid s txs :
  chain_objects s = Some txs → spec_verify_chain txs = None →
  ∃ log, verify_consolidation_chain s = Some (true, log).
Proof.
  intros Hobj Hnone. unfold verify_consolidation_chain. rewrite Hobj. simpl.
  case_bool_decide; [by eexists|].
  rewrite (verify_loop_ok txs txs 0); [by eexists|done|].
  intros k _. by apply spec_verify_chain_None.
Qed.

Lemma verify_consolidation_chain_break s txs i :
  chain_objects s = Some txs → spec_verify_chain txs = Some i →
  verify_consolidation_chain s = Some (false, [break_message i]).
Proof.
  intros Hobj [Hi Hbelow]%spec_verify_chain_Some.
  unfold verify_consolidation_chain. rewrite Hobj. simpl.
  rewrite bool_decide_eq_false_2.
  - rewrite (verify_loop_break txs i Hi txs 0); [done|done|lia|].
    intros k' _ Hk'. by apply Hbelow.
  - intros Hlen. apply link_ok_false_lt in Hi. lia.
Qed.

(** C7, as the code has it. [verify_consolidation_chain] walks the stored
    transactions in order and answers with a boolean: true exactly when every
    link, the genesis link at index 0 included, is correct, and false
    otherwise. At the first broken link it stops, writes one error record
    for that index, and nothing after that index has any influence on the
    answer; the index itself is not returned. *)
Theorem verify_consolidation_chain_result s txs :
  chain_objects s = Some txs →
  ∃ b log, verify_consolidation_chain s = Some (b, log) ∧
    (b = true ↔ spec_verify_chain txs = None) ∧
    (∀ i, spec_verify_chain txs = Some i →
       b = false ∧ log = [break_message i] ∧
       ∀ s' txs', chain_objects s' = Some txs' →
                  take (S i) txs' = take (S i) txs →
                  verify_consolidation_chain s' = Some (false, [break_message i])).
Proof.
  intros Hobj. destruct (spec_verify_chain txs) as [i|] eqn:Hspec.
  - exists false, [break_message i].
    split; [by apply (verify_consolidation_chain_break s txs)|].
    split; [split; discriminate|].
    intros i' [= <-]. split; [done|]. split; [done|].
    intros s' txs' Hobj' Htake.
    apply (verify_consolidation_chain_break s' txs'); [done|].
    apply spec_verify_chain_Some in Hspec as [Hi Hbelow].
    apply spec_verify_chain_Some. split.
    + by rewrite (link_ok_take txs txs' i i).
    + intros k Hk. rewrite (link_ok_take txs txs' i k) by (done || lia).
      by apply Hbelow.
  - destruct (verify_consolidation_chain_valid s txs Hobj Hspec) as [log Hlog].
    exists true, log. split; [done|]. split; [done|]. intros i [=].
Qed.

End VerifyClaims.

(** Four transactions created and added in turn verify. *)
Lemma four_transactions_verified :
  ∃ s, run (new_ledger []) four_transactions = Some s ∧
       chain s = [0; 1; 2; 3] ∧
       verify_consolidation_chain s =
         Some (true, [LogInfo "Consolidation chain verified successfully"]).
Proof. eexists. vm_compute. repeat split; reflexivity. Qed.

Lemma corrupted_ledger_1 :
  ∃ s txs, corrupted_ledger 1 = Some s ∧ chain_objects s = Some txs ∧
           spec_verify_chain txs = Some 1 ∧
           verify_consolidation_chain s =
             Some (false, [LogError "Hash chain broken at transaction 1"]).
Proof. eexists _, _. vm_compute. repeat split; reflexivity. Qed.

Lemma corrupted_ledger_2 :
  ∃ s txs, corrupted_ledger 2 = Some s ∧ chain_objects s = Some txs ∧
           spec_verify_chain txs = Some 2 ∧
           verify_consolidation_chain s =
             Some (false, [LogError "Hash chain broken at transaction 2"]).
Proof. eexists _, _. vm_compute. repeat split; reflexivity. Qed.

(** C7, as stated, fails: no reading of the value returned recovers the
    index of the first break, since a ledger broken at index 1 and one
    broken at index 2 are both answered with the same boolean. *)
Lemma verify_chain_returns_no_index :
  ¬ ∃ index_of : bool → option nat,
      ∀ (s : ledger_state string) txs b log,
        chain_objects s = Some txs →
        verify_consolidation_chain s = Some (b, log) →
        index_of b = spec_verify_chain txs.
Proof.
  intros [index_of Hdec].
  destruct corrupted_ledger_1 as (s1 & txs1 & _ & Ho1 & Hs1 & Hv1).
  destruct corrupted_ledger_2 as (s2 & txs2 & _ & Ho2 & Hs2 & Hv2).
  pose proof (Hdec s1 txs1 _ _ Ho1 Hv1) as H1.
  pose proof (Hdec s2 txs2 _ _ Ho2 Hv2) as H2.
  rewrite Hs1 in H1. rewrite Hs2 in H2. rewrite H1 in H2. discriminate.
Qed.

(** The theorem on the ledger whose link at index 2 has been corrupted. *)
Lemma verify_consolidation_chain_witness :
  ∃ s txs, corrupted_ledger 2 = Some s ∧
    chain_objects s = Some txs ∧
    ∃ b log, verify_consolidation_chain s = Some (b, log) ∧
      (b = true ↔ spec_verify_chain txs = None) ∧
      (∀ i, spec_verify_chain txs = Some i →
         b = false ∧ log = [break_message i] ∧
         ∀ (s' : ledger_state string) txs', chain_objects s' = Some txs' →
                    take (S i) txs' = take (S i) txs →
                    verify_consolidation_chain s' = Some (false, [break_message i])).
Proof.
  eexists _, _. split; [vm_compute; reflexivity|].
  split; [vm_compute; reflexivity|].
  apply verify_consolidation_chain_result. vm_compute. reflexivity.
Defined.

(** ** Rejection by [add_transaction] *)

Section Rejection.
Context {Payload : Type} `{!JsonDumps Payload}.
Implicit Types (s : ledger_state Payload) (r : ref) (tx : BlockchainTransaction).

(** A transaction with an empty id or timestamp, or with a [previous_hash]
    other than the tail's [data_hash], is marked rejected and not appended. *)
Lemma add_transaction_rejects s r tx :
  heap s !! r = Some tx → chain_live s →
  tx_id tx = "" ∨ timestamp tx = "" ∨ latest_hash s ≠ Some (previous_hash tx) →
  add_transaction s r =
    Some (false, {| heap := <[r := set_status tx "rejected"]> (heap s);
                    chain := chain s;
                    pending_transactions := pending_transactions s |}).
Proof.
  intros Hr Hlive Hbad.
  destruct (validate_live s tx Hlive) as [ok Hok].
  destruct ok.
  - apply validate_true in Hok as (Hid & Hts & Hprev).
    destruct Hbad as [?|[?|?]]; done.
  - by rewrite (add_transaction_unfold _ _ _ _ Hr Hok).
Qed.

(** When the rejected object is not one of the chain's, the chain reads
    exactly as before. *)
Lemma add_transaction_rejects_unshared s r tx st :
  heap s !! r = Some tx → r ∉ chain s →
  chain_objects {| heap := <[r := set_status tx st]> (heap s);
                   chain := chain s;
                   pending_transactions := pending_transactions s |}
  = chain_objects s.
Proof.
  intros Hr Hnot. unfold chain_objects. simpl.
  apply Forall_mapM_ext, Forall_forall. intros r0 Hr0.
  apply list_lookup_insert_ne. by intros ->.
Qed.

End Rejection.

(** C8, at the input where the code departs from it. A transaction is
    created and added, the tail advances, and the same transaction is added
    again: the call returns false and appends nothing, but the object it
    marks rejected is the one stored at index 0, so the chain no longer
    reads as it did before the call. *)
Theorem stale_readd_marks_stored_transaction_rejected :
  ∃ (s s' : ledger_state string) before after,
    run (new_ledger []) four_transactions = Some s ∧
    add_transaction s 0 = Some (false, s') ∧
    chain s' = chain s ∧
    chain_objects s = Some before ∧ chain_objects s' = Some after ∧
    status <$> before !! 0 = Some "confirmed" ∧
    status <$> after !! 0 = Some "rejected" ∧
    before ≠ after.
Proof.
  eexists _, _, _, _. vm_compute.
  repeat (split; [reflexivity|]). discriminate.
Qed.

(** ** Instances of the ledger theorems *)

Lemma hash_chain_linkage_witness :
  calls_live 0 (four_transactions ++ [AddTransaction 0]) = true ∧
  ∃ s, run (new_ledger []) (four_transactions ++ [AddTransaction 0]) = Some s ∧
    (∀ i r, chain s !! i = Some r →
       ∃ tx, heap s !! r = Some tx ∧
         match i with
         | O => previous_hash tx = genesis_hash
         | S j => ∃ r' tx', chain s !! j = Some r' ∧ heap s !! r' = Some tx' ∧
                            previous_hash tx = data_hash tx'
         end) ∧
    genesis_hash = String.string_of_list_ascii (replicate 64 "0"%char).
Proof.
  split; [reflexivity|].
  apply (hash_chain_linkage (Payload := string) []). reflexivity.
Defined.

Lemma create_transaction_merkle_root_witness :
  chain_live (new_ledger (Payload := string) []) ∧
  ∃ r s' tx,
    create_transaction (new_ledger []) "genesis" genesis_payload clock0 = Some (r, s') ∧
    heap s' !! r = Some tx ∧
    merkle_root tx = calculate_hash (json_dumps genesis_payload).
Proof.
  split; [apply Forall_nil_2|].
  apply create_transaction_merkle_root. apply Forall_nil_2.
Defined.

(** C3, as stated, fails: for the payload [{"message": "Genesis"}] the
    merkle root of the created transaction is not the hash of the payload's
    hash concatenated with itself. *)
Lemma merkle_root_single_payload_not_duplicated :
  ∃ r s' tx,
    create_transaction (new_ledger []) "genesis" genesis_payload clock0 = Some (r, s') ∧
    heap s' !! r = Some tx ∧
    merkle_root tx ≠
      calculate_hash (calculate_hash (json_dumps genesis_payload)
                      +:+ calculate_hash (json_dumps genesis_payload)).
Proof.
  eexists _, _, _. split; [vm_compute; reflexivity|]. split; [reflexivity|].
  vm_compute. discriminate.
Qed.

Lemma create_transaction_frame_witness :
  chain_live one_transaction_ledger ∧
  (∃ r s' tx,
     create_transaction one_transaction_ledger "consolidation_event" "{}" clock1
       = Some (r, s') ∧
     chain s' = chain one_transaction_ledger ∧
     pending_transactions s' = pending_transactions one_transaction_ledger ∧
     (∀ r0 tx0, heap one_transaction_ledger !! r0 = Some tx0 →
                heap s' !! r0 = Some tx0) ∧
     heap one_transaction_ledger !! r = None ∧ heap s' !! r = Some tx ∧
     status tx = "pending" ∧
     latest_hash one_transaction_ledger = Some (previous_hash tx)) ∧
  (∀ c s', perform one_transaction_ledger c = Some s' →
     chain s' ≠ chain one_transaction_ledger →
     ∃ r, c = AddTransaction r ∧ chain s' = chain one_transaction_ledger ++ [r]).
Proof.
  assert (chain_live one_transaction_ledger) as Hlive.
  { apply Forall_singleton. simpl. lia. }
  split; [exact Hlive|].
  apply create_transaction_frame. exact Hlive.
Defined.

(** * The temporal coordinator *)

Section CoordinatorFacts.
Implicit Types (c : TemporalCoordinator) (agents : list string)
  (locks : gmap string bool).

Lemma lookup_set_locks v agents : ∀ locks a,
  set_locks v agents locks !! a =
    if decide (a ∈ agents) then Some v else locks !! a.
Proof.
  unfold set_locks. induction agents as [|x agents IH]; intros locks a; simpl.
  { destruct (decide (a ∈ [])) as [Hin|_]; [|done]. by apply elem_of_nil in Hin. }
  rewrite IH.
  destruct (decide (a ∈ agents)) as [Hin|Hnot];
    destruct (decide (a ∈ x :: agents)) as [Hin'|Hnot']; try done.
  - exfalso. apply Hnot', elem_of_cons. by right.
  - apply elem_of_cons in Hin' as [->|Hin']; [|done].
    by rewrite lookup_insert_eq.
  - rewrite lookup_insert_ne; [done|]. intros ->. apply Hnot', elem_of_cons. by left.
Qed.

Lemma locked_with_locks c locks a :
  locked (with_locks c locks) a = default false (locks !! a).
Proof. done. Qed.

Lemma locked_set_locks c v agents a :
  a ∈ agents → locked (with_locks c (set_locks v agents (coordination_locks c))) a = v.
Proof.
  intros Hin. rewrite locked_with_locks, lookup_set_locks.
  by destruct (decide (a ∈ agents)).
Qed.

Lemma locked_register_event c ty who d clk a :
  locked (snd (register_event c ty who d clk)) a = locked c a.
Proof. done. Qed.

(** The check at the head of [coordinate_operation]. *)
Lemma existsb_locked c agents :
  existsb (locked c) agents = true ↔ ∃ a, a ∈ agents ∧ locked c a = true.
Proof.
  rewrite existsb_exists. split; intros (a & Hin & Ha); exists a.
  - by rewrite list_elem_of_In.
  - by rewrite <- list_elem_of_In.
Qed.

(** Whatever happened while the call was suspended, its return frees the
    lock of every agent it was called with. *)
Lemma coordinate_finish_releases c cid agents slept t2 a :
  a ∈ agents → locked (snd (coordinate_finish c cid agents slept t2)) a = false.
Proof.
  intros Hin. destruct slept; simpl; by apply locked_set_locks.
Qed.

Lemma coordinate_finish_result c cid agents slept t2 :
  fst (coordinate_finish c cid agents slept t2) = true ↔ slept = Completed.
Proof. by destruct slept. Qed.

Lemma coordinate_begin_rejected c op agents t0 t1 :
  existsb (locked c) agents = true → coordinate_begin c op agents t0 t1 = Rejected.
Proof. intros H. unfold coordinate_begin. by rewrite H. Qed.

Lemma coordinate_begin_suspended c op agents t0 t1 :
  existsb (locked c) agents = false →
  ∃ c1, coordinate_begin c op agents t0 t1 = Suspended c1 ∧
        ∀ a, a ∈ agents → locked c1 a = true.
Proof.
  intros H. unfold coordinate_begin. rewrite H. eexists. split; [done|].
  intros a Hin. simpl. by apply (locked_set_locks c true).
Qed.

Lemma dense_register_event c ty who d clk :
  dense c → dense (snd (register_event c ty who d clk)).
Proof.
  unfold dense. simpl. intros Hd.
  rewrite fmap_app, Hd. simpl.
  by rewrite Nat.add_1_r, seq_S.
Qed.

Lemma register_all_cons c ty who d clk (calls : list registration) :
  register_all c ((ty, who, d, clk) :: calls) =
  register_all (snd (register_event c ty who d clk)) calls.
Proof. done. Qed.

Lemma dense_register_all (calls : list registration) : ∀ c,
  dense c →
  dense (register_all c calls) ∧
  sequence_counter (register_all c calls) = sequence_counter c + length calls ∧
  agent <$> events (register_all c calls) =
    (agent <$> events c) ++ ((λ call : registration, call.1.1.2) <$> calls).
Proof.
  induction calls as [|[[[ty who] d] clk] calls IH]; intros c Hd.
  { split; [done|]. split; [simpl; lia|]. by rewrite app_nil_r. }
  rewrite register_all_cons.
  destruct (IH (snd (register_event c ty who d clk))) as (Hd' & Hn & Hag).
  { by apply dense_register_event. }
  split; [done|]. split.
  - rewrite Hn. simpl. lia.
  - rewrite Hag. simpl. by rewrite fmap_app, <- app_assoc.
Qed.

(** Sorting a timeline that is already in sequence order changes nothing. *)
Lemma sorted_by_sequence_seq (l : list TemporalEvent) : ∀ k n,
  sequence <$> l = seq k n → sorted_by_sequence l = l.
Proof.
  induction l as [|e l IH]; intros k n Hseq; [done|].
  destruct n as [|n]; [done|]. simpl in Hseq. injection Hseq as He Hl.
  simpl. rewrite (IH _ _ Hl).
  destruct l as [|y l']; [done|]. simpl.
  destruct n as [|n]; [done|]. simpl in Hl. injection Hl as Hy _.
  rewrite bool_decide_eq_true_2; [done|lia].
Qed.

Lemma check_sequence_seq (l : list TemporalEvent) : ∀ i n,
  sequence <$> l = seq (i + 1) n → check_sequence i l = true.
Proof.
  induction l as [|e l IH]; intros i n Hseq; [done|].
  destruct n as [|n]; [done|]. simpl in Hseq. injection Hseq as He Hl.
  simpl. rewrite bool_decide_eq_false_2 by (intros Hne; by apply Hne).
  apply (IH (S i) n). by rewrite Nat.add_1_r in *.
Qed.

Lemma dense_verified c : dense c → _verify_temporal_consistency c = true.
Proof.
  intros Hd. unfold _verify_temporal_consistency, get_event_timeline.
  rewrite (sorted_by_sequence_seq _ _ _ Hd).
  by apply (check_sequence_seq _ 0 (sequence_counter c)).
Qed.

End CoordinatorFacts.

(** C4. After any sequence of [register_event] calls on a new coordinator
    the sequence numbers of the stored events, in append order, are exactly
    1, 2, ..., N, N being the number of calls: the event at 0-based position
    [i] has sequence [i + 1], whichever agent each call names (the agents
    are stored as given), and [_verify_temporal_consistency], which checks
    that condition on the sorted timeline, returns true. *)
Theorem register_event_sequence_dense (calls : list registration) :
  sequence <$> events (register_all new_coordinator calls) = seq 1 (length calls) ∧
  (∀ i e, events (register_all new_coordinator calls) !! i = Some e →
          sequence e = i + 1) ∧
  agent <$> events (register_all new_coordinator calls)
    = (λ call : registration, call.1.1.2) <$> calls ∧
  _verify_temporal_consistency (register_all new_coordinator calls) = true.
Proof.
  destruct (dense_register_all calls new_coordinator) as (Hd & Hn & Hag); [done|].
  simpl in Hn.
  assert (sequence <$> events (register_all new_coordinator calls)
          = seq 1 (length calls)) as Hseq.
  { unfold dense in Hd. by rewrite Hd, Hn. }
  split; [done|]. split; [|split; [done|by apply dense_verified]].
  intros i e Hi.
  assert ((sequence <$> events (register_all new_coordinator calls)) !! i
          = Some (sequence e)) as Hs.
  { by rewrite list_lookup_fmap, Hi. }
  rewrite Hseq in Hs. apply lookup_seq in Hs as [-> _]. lia.
Qed.

(** Three events from three agents are numbered 1, 2, 3. *)
Lemma register_event_sequence_dense_witness :
  sequence <$> events (register_all new_coordinator three_registrations) = [1; 2; 3] ∧
  agent <$> events (register_all new_coordinator three_registrations)
    = ["chronos"; "ananke"; "elizaos"] ∧
  _verify_temporal_consistency (register_all new_coordinator three_registrations) = true.
Proof.
  destruct (register_event_sequence_dense three_registrations) as (Hs & _ & Ha & Hv).
  split; [exact Hs|]. split; [exact Ha|exact Hv].
Defined.

(** C5. When some agent of the requested set is locked at the call,
    [coordinate_operation] returns false at the check, before its suspension
    point, and the coordinator is left exactly as it was: no lock is
    acquired for any requested agent and the lock of every agent, the one
    found locked included, reads as before. *)
Theorem coordinate_operation_contention (c : TemporalCoordinator) (op : string)
    (agents : list string) (t0 t1 t2 : instant) (slept : awaited) (a : string) :
  a ∈ agents → locked c a = true →
  coordinate_begin c op agents t0 t1 = Rejected ∧
  ∃ c', coordinate_operation c op agents t0 t1 slept t2 = (false, c') ∧
        c' = c ∧
        coordination_locks c' = coordination_locks c ∧
        ∀ b, locked c' b = locked c b.
Proof.
  intros Hin Ha.
  assert (existsb (locked c) agents = true) as Hex.
  { apply existsb_locked. by exists a. }
  pose proof (coordinate_begin_rejected c op agents t0 t1 Hex) as Hrej.
  split; [done|]. exists c. unfold coordinate_operation. by rewrite Hrej.
Qed.

(** C2, as the code has it. A [coordinate_operation] call that finds no
    requested agent locked takes every requested lock, and when it returns,
    true after the awaited step or false after an error in it, every agent
    of the requested set has its lock free, whatever was done to the
    coordinator while the call was suspended. A call that finds a requested
    agent locked returns false and leaves the lock table as it found it. *)
Theorem coordinate_operation_releases (c : TemporalCoordinator) (op : string)
    (agents : list string) (t0 t1 t2 : instant) (slept : awaited) :
  (existsb (locked c) agents = false →
     ∃ c1 b c',
       coordinate_begin c op agents t0 t1 = Suspended c1 ∧
       (∀ a, a ∈ agents → locked c1 a = true) ∧
       coordinate_operation c op agents t0 t1 slept t2 = (b, c') ∧
       (b = true ↔ slept = Completed) ∧
       (∀ a, a ∈ agents → locked c' a = false) ∧
       (∀ resumed a, a ∈ agents →
          locked (snd (coordinate_finish resumed (coordination_id op t0)
                         agents slept t2)) a = false)) ∧
  (existsb (locked c) agents = true →
     coordinate_operation c op agents t0 t1 slept t2 = (false, c)).
Proof.
  split.
  - intros Hfree.
    destruct (coordinate_begin_suspended c op agents t0 t1 Hfree) as (c1 & Hb & Hheld).
    exists c1, (fst (coordinate_finish c1 (coordination_id op t0) agents slept t2)),
           (snd (coordinate_finish c1 (coordination_id op t0) agents slept t2)).
    split; [done|]. split; [done|]. split.
    { unfold coordinate_operation. rewrite Hb. by destruct (coordinate_finish _ _ _ _ _). }
    split; [apply coordinate_finish_result|]. split.
    + intros a Hin. by apply coordinate_finish_releases.
    + intros resumed a Hin. by apply coordinate_finish_releases.
  - intros Hheld. unfold coordinate_operation.
    by rewrite (coordinate_begin_rejected c op agents t0 t1 Hheld).
Qed.

(** C2, as stated, fails: while a first call on A and B is suspended, a
    second call on A and B returns false, and at that return the lock of A,
    an agent of the requested set, is held. *)
Lemma rejected_call_returns_with_lock_held :
  ∃ c1 c2,
    first_call_waiting = Suspended c1 ∧
    coordinate_operation c1 "merge" ["A"; "B"] clock1 clock1 Completed clock1
      = (false, c2) ∧
    "A" ∈ ["A"; "B"] ∧ locked c2 "A" = true.
Proof.
  eexists _, _. split; [reflexivity|]. split; [reflexivity|].
  split; [apply elem_of_cons; by left|reflexivity].
Qed.

Lemma coordinate_operation_contention_witness :
  ∃ c1, first_call_waiting = Suspended c1 ∧
    "B" ∈ ["B"; "C"] ∧ locked c1 "B" = true ∧
    coordinate_begin c1 "scan" ["B"; "C"] clock1 clock1 = Rejected ∧
    ∃ c', coordinate_operation c1 "scan" ["B"; "C"] clock1 clock1 Completed clock1
            = (false, c') ∧
          c' = c1 ∧
          coordination_locks c' = coordination_locks c1 ∧
          ∀ b, locked c' b = locked c1 b.
Proof.
  eexists. split; [reflexivity|].
  assert ("B" ∈ ["B"; "C"]) as Hin by (apply elem_of_cons; by left).
  split; [exact Hin|]. split; [reflexivity|].
  apply (coordinate_operation_contention _ "scan" ["B"; "C"] clock1 clock1 clock1
           Completed "B" Hin).
  reflexivity.
Defined.

Lemma coordinate_operation_releases_witness :
  existsb (locked new_coordinator) ["A"; "B"] = false ∧
  (∃ c1, first_call_waiting = Suspended c1 ∧
         existsb (locked c1) ["A"; "B"] = true) ∧
  (existsb (locked new_coordinator) ["A"; "B"] = false →
     ∃ c1 b c',
       coordinate_begin new_coordinator "merge" ["A"; "B"] clock0 clock0 = Suspended c1 ∧
       (∀ a, a ∈ ["A"; "B"] → locked c1 a = true) ∧
       coordinate_operation new_coordinator "merge" ["A"; "B"] clock0 clock0
         (Raised "timeout") clock1 = (b, c') ∧
       (b = true ↔ Raised "timeout" = Completed) ∧
       (∀ a, a ∈ ["A"; "B"] → locked c' a = false) ∧
       (∀ resumed a, a ∈ ["A"; "B"] →
          locked (snd (coordinate_finish resumed (coordination_id "merge" clock0)
                         ["A"; "B"] (Raised "timeout") clock1)) a = false)) ∧
  (existsb (locked new_coordinator) ["A"; "B"] = true →
     coordinate_operation new_coordinator "merge" ["A"; "B"] clock0 clock0
       (Raised "timeout") clock1 = (false, new_coordinator)).
Proof.
  split; [reflexivity|]. split; [eexists; split; reflexivity|].
  apply coordinate_operation_releases.
Defined.

(** * The proof engine *)

Section ProofFacts.
Implicit Types (e : ProofEngine) (p : ConsolidationProof) (id : string).

Lemma find_proof_None e id :
  find_proof e id = None ↔ ∀ p, p ∈ proofs e → proof_id p ≠ id.
Proof.
  unfold find_proof. rewrite list_find_None, Forall_forall. done.
Qed.

Lemma find_proof_Some e id i p :
  find_proof e id = Some (i, p) →
  proofs e !! i = Some p ∧ proof_id p = id.
Proof.
  unfold find_proof. intros (Hi & Hid & _)%list_find_Some. done.
Qed.

(** Finalizing keeps the proof where it is and under the same id. *)
Lemma find_proof_finalized e id i p files fs :
  find_proof e id = Some (i, p) →
  ∃ p', find_proof (snd (finalize_proof e id files fs)) id = Some (i, p') ∧
        fst (finalize_proof e id files fs) = true ∧
        verified p' = true ∧
        after_hash p' = state_hash fs files ∧
        before_hash p' = before_hash p ∧
        files_affected p' = files_affected p.
Proof.
  intros Hfind. unfold finalize_proof. rewrite Hfind. simpl.
  eexists. split.
  - unfold find_proof in *. simpl.
    apply list_find_Some in Hfind as (Hi & Hid & Hbelow).
    apply list_find_Some. split.
    { apply list_lookup_insert_eq. by eapply lookup_lt_Some. }
    split; [done|].
    intros j y Hj Hlt. rewrite list_lookup_insert_ne in Hj by lia.
    by eapply Hbelow.
  - done.
Qed.

Lemma verify_integrity_true e id :
  verify_integrity e id = true ↔
  ∃ i p, find_proof e id = Some (i, p) ∧ verified p = true ∧
         before_hash p ≠ after_hash p ∧ files_affected p ≠ [].
Proof.
  unfold verify_integrity. destruct (find_proof e id) as [[i p]|]; split.
  - intros [[Hv Hh%bool_decide_eq_true]%andb_true_iff Hf%bool_decide_eq_true]%andb_true_iff.
    exists i, p. repeat split; [done..|]. intros Hnil. rewrite Hnil in Hf. simpl in Hf. lia.
  - intros (i' & p' & [= <- <-] & Hv & Hh & Hf).
    rewrite Hv. simpl. apply andb_true_iff. split; apply bool_decide_eq_true; [done|].
    destruct (files_affected p); [done|simpl; lia].
  - done.
  - intros (i & p & [=] & _).
Qed.

End ProofFacts.

(** C6. [verify_integrity(proof_id)] returns true exactly when the stored
    proof with that id, the first one the lookup finds, is finalized, its
    [before_hash] differs from its [after_hash], and its fileset is not
    empty. [finalize_proof], whenever it succeeds, marks that proof
    finalized whatever the two hashes are, so that a proof finalized with
    [after_hash] equal to [before_hash] is finalized and yet
    [verify_integrity] is false on it. *)
Theorem verify_integrity_iff (e : ProofEngine) (id : string) :
  (verify_integrity e id = true ↔
     ∃ i p, find_proof e id = Some (i, p) ∧ verified p = true ∧
            before_hash p ≠ after_hash p ∧ files_affected p ≠ []) ∧
  (∀ files fs e', finalize_proof e id files fs = (true, e') →
     ∃ i p', find_proof e' id = Some (i, p') ∧ verified p' = true ∧
             after_hash p' = state_hash fs files ∧
             (before_hash p' = after_hash p' → verify_integrity e' id = false)).
Proof.
  split; [apply verify_integrity_true|].
  intros files fs e' Hfin.
  destruct (find_proof e id) as [[i p]|] eqn:Hfind.
  - destruct (find_proof_finalized e id i p files fs Hfind)
      as (p' & Hfind' & _ & Hv & Ha & _).
    rewrite Hfin in Hfind'. simpl in Hfind'.
    exists i, p'. split; [done|]. split; [done|]. split; [done|].
    intros Heq. unfold verify_integrity. rewrite Hfind'.
    rewrite (bool_decide_eq_false_2 (before_hash p' ≠ after_hash p')) by (intros Hne; by apply Hne).
    by rewrite andb_false_r.
  - unfold finalize_proof in Hfin. rewrite Hfind in Hfin. discriminate.
Qed.

(** C9. For a [proof_id] that no stored proof has, [finalize_proof]
    returns false and leaves the collection of proofs as it was, and
    [verify_integrity] returns false. *)
Theorem unknown_proof_id (e : ProofEngine) (id : string) (files : list string)
    (fs : gmap string file_entry) :
  (∀ p, p ∈ proofs e → proof_id p ≠ id) →
  finalize_proof e id files fs = (false, e) ∧
  proofs (snd (finalize_proof e id files fs)) = proofs e ∧
  verify_integrity e id = false.
Proof.
  intros Hnone%find_proof_None.
  unfold finalize_proof, verify_integrity. by rewrite Hnone.
Qed.

(** The sample proof, finalized over an unchanged file, is finalized and
    not verified; finalized over a changed file, it is verified. *)
Lemma verify_integrity_iff_witness :
  (∃ e', finalize_proof sample_engine sample_proof_id ["a.py"; "gone.py"]
           (one_file "x = 1") = (true, e') ∧
         (verified <$> proofs e' !! 0) = Some true ∧
         verify_integrity e' sample_proof_id = false) ∧
  verify_integrity
    (snd (finalize_proof sample_engine sample_proof_id ["a.py"; "gone.py"]
            (one_file "x = 2"))) sample_proof_id = true ∧
  ((verify_integrity sample_engine sample_proof_id = true ↔
      ∃ i p, find_proof sample_engine sample_proof_id = Some (i, p) ∧
             verified p = true ∧
             before_hash p ≠ after_hash p ∧ files_affected p ≠ []) ∧
   (∀ files fs e', finalize_proof sample_engine sample_proof_id files fs = (true, e') →
      ∃ i p', find_proof e' sample_proof_id = Some (i, p') ∧ verified p' = true ∧
              after_hash p' = state_hash fs files ∧
              (before_hash p' = after_hash p' →
               verify_integrity e' sample_proof_id = false))).
Proof.
  split.
  { eexists. vm_compute. repeat split; reflexivity. }
  split; [vm_compute; reflexivity|].
  apply verify_integrity_iff.
Defined.

Lemma unknown_proof_id_witness :
  (∀ p, p ∈ proofs sample_engine → proof_id p ≠ "no-such-proof") ∧
  finalize_proof sample_engine "no-such-proof" ["a.py"] (one_file "x = 2")
    = (false, sample_engine) ∧
  proofs (snd (finalize_proof sample_engine "no-such-proof" ["a.py"] (one_file "x = 2")))
    = proofs sample_engine ∧
  verify_integrity sample_engine "no-such-proof" = false.
Proof.
  assert (∀ p, p ∈ proofs sample_engine → proof_id p ≠ "no-such-proof") as Hnone.
  { apply find_proof_None. vm_compute. reflexivity. }
  split; [exact Hnone|]. apply unknown_proof_id. exact Hnone.
Defined.

(** * More on the hash function *)

Section DigestShape.
Local Open Scope Z_scope.

Lemma be_bytes_length (n : nat) : ∀ x, length (SHA256.be_bytes n x) = n.
Proof.
  induction n as [|n IH]; intros x; simpl; [done|].
  rewrite length_app, IH. simpl. lia.
Qed.

Lemma compress_length (h block : list Z) : length (SHA256.compress h block) = 8%nat.
Proof.
  unfold SHA256.compress.
  by destruct (fold_left SHA256.round _ _).
Qed.

Lemma process_length (n : nat) : ∀ h bs,
  length h = 8%nat → length (SHA256.process n h bs) = 8%nat.
Proof.
  induction n as [|n IH]; intros h bs Hh; simpl; [done|].
  apply IH, compress_length.
Qed.

Lemma digest_length (msg : list Z) : length (SHA256.digest msg) = 32%nat.
Proof.
  unfold SHA256.digest.
  assert (∀ ls : list (list Z), Forall (λ l, length l = 4%nat) ls →
            length (mjoin ls) = (4 * length ls)%nat) as Hj.
  { induction 1 as [|l ls Hl _ IH]; [done|].
    simpl. rewrite length_app, IH, Hl. lia. }
  rewrite Hj.
  - rewrite length_fmap, process_length; done.
  - apply Forall_fmap, Forall_forall. intros w _. apply be_bytes_length.
Qed.

Lemma hex_length (bs : list Z) : String.length (SHA256.hex bs) = (2 * length bs)%nat.
Proof. induction bs as [|b bs IH]; simpl; [done|]. rewrite IH. lia. Qed.

End DigestShape.

(** A hash is 64 characters long, and so never the empty string. *)
Lemma calculate_hash_length (data : string) : String.length (calculate_hash data) = 64.
Proof.
  unfold calculate_hash, SHA256.hexdigest. by rewrite hex_length, digest_length.
Qed.

Lemma calculate_hash_nonempty (data : string) : calculate_hash data ≠ "".
Proof.
  intros Heq. pose proof (calculate_hash_length data) as Hlen.
  rewrite Heq in Hlen. discriminate.
Qed.

(** * More on the ledger *)

Section LedgerExtras.
Context {Payload : Type} `{!JsonDumps Payload}.
Implicit Types (s : ledger_state Payload) (r : ref) (tx : BlockchainTransaction).

Lemma create_then_add s op (d : Payload) clk :
  chain_live s → now_isoformat clk ≠ "" →
  ∃ r s1 s2 tx,
    create_transaction s op d clk = Some (r, s1) ∧
    add_transaction s1 r = Some (true, s2) ∧
    chain s2 = chain s ++ [r] ∧
    heap s2 !! r = Some tx ∧ status tx = "confirmed" ∧
    operation tx = op ∧
    latest_hash s = Some (previous_hash tx) ∧
    latest_hash s2 = Some (data_hash tx) ∧
    chain_live s2.
Proof.
  intros Hlive Hts.
  destruct (create_transaction_Some s op d clk Hlive) as (prev & Hprev & Hc).
  set (tx0 := {| tx_id := calculate_hash (op +:+ "_" +:+ time_repr clk +:+ "_" +:+ json_dumps d);
                 timestamp := now_isoformat clk; operation := op;
                 data_hash := calculate_hash (json_dumps_sorted d);
                 previous_hash := prev;
                 merkle_root := calculate_hash (json_dumps d);
                 status := "pending" |}) in *.
  set (s1 := {| heap := heap s ++ [tx0]; chain := chain s;
                pending_transactions := pending_transactions s |}) in *.
  assert (heap s1 !! length (heap s) = Some tx0) as Hr by (by apply list_lookup_middle).
  assert (chain_live s1) as Hlive1.
  { eapply (chain_live_kept s); [apply hashes_kept_alloc|done..]. }
  assert (latest_hash s1 = Some prev) as Hprev1.
  { unfold latest_hash in *. simpl. destruct (last (chain s)) as [r0|] eqn:Hlast; [|done].
    destruct (heap s !! r0) as [t0|] eqn:Hr0; [|done].
    by rewrite (lookup_app_l_Some _ _ _ _ Hr0). }
  assert (_validate_transaction s1 tx0 = Some true) as Hok.
  { apply validate_true. split; [apply calculate_hash_nonempty|]. split; done. }
  exists (length (heap s)), s1. eexists _, (set_status tx0 "confirmed").
  split; [done|].
  split; [by rewrite (add_transaction_unfold _ _ _ _ Hr Hok)|].
  simpl. split; [done|]. split.
  { apply list_lookup_insert_eq. rewrite length_app. simpl. lia. }
  split; [done|]. split; [done|]. split; [done|]. split.
  - unfold latest_hash. simpl. rewrite last_snoc.
    rewrite list_lookup_insert_eq; [done|]. rewrite length_app. simpl. lia.
  - unfold chain_live. simpl. apply Forall_app. split.
    + eapply Forall_impl; [exact Hlive|]. intros r0 Hr0. simpl in *.
      rewrite length_insert, length_app. lia.
    + apply Forall_singleton. rewrite length_insert, length_app. simpl. lia.
Qed.

Lemma add_transaction_effect s r b s' :
  add_transaction s r = Some (b, s') →
  ∃ tx, heap s !! r = Some tx ∧
    chain s' = (if b then chain s ++ [r] else chain s) ∧
    heap s' = <[r := set_status tx (if b then "confirmed" else "rejected")]> (heap s) ∧
    pending_transactions s' = pending_transactions s ∧
    (∀ r0, r0 ≠ r → heap s' !! r0 = heap s !! r0) ∧
    (b = true ↔ tx_id tx ≠ "" ∧ timestamp tx ≠ "" ∧
                latest_hash s = Some (previous_hash tx)).
Proof.
  intros Hadd. unfold add_transaction in Hadd.
  destruct (heap s !! r) as [tx|] eqn:Hr; [|done]. simpl in Hadd.
  destruct (_validate_transaction s tx) as [ok|] eqn:Hok; [|done]. simpl in Hadd.
  exists tx. split; [done|].
  assert (b = ok ∧ s' = {| heap := <[r := set_status tx (if ok then "confirmed" else "rejected")]> (heap s);
                           chain := if ok then chain s ++ [r] else chain s;
                           pending_transactions := pending_transactions s |}) as [-> ->].
  { destruct ok; by injection Hadd as <- <-. }
  simpl. split; [done|]. split; [done|]. split; [done|]. split.
  - intros r0 Hne. by apply list_lookup_insert_ne.
  - rewrite <- validate_true, Hok. split; congruence.
Qed.

(** A transaction made by [create_transaction] and handed at once to
    [add_transaction] is accepted: the call returns true, the transaction
    is confirmed and is the new tail. *)
Theorem create_then_add_accepted s op (d : Payload) clk :
  chain_live s → now_isoformat clk ≠ "" →
  ∃ r s1 s2 tx,
    create_transaction s op d clk = Some (r, s1) ∧
    add_transaction s1 r = Some (true, s2) ∧
    chain s2 = chain s ++ [r] ∧
    heap s2 !! r = Some tx ∧ status tx = "confirmed" ∧
    operation tx = op ∧
    latest_hash s = Some (previous_hash tx) ∧
    latest_hash s2 = Some (data_hash tx) ∧
    chain_live s2.
Proof.
  intros Hlive Hts.
  destruct (create_then_add s op d clk Hlive Hts)
    as (r & s1 & s2 & tx & Hcreate & Hadd & Hrest).
  exists r, s1, s2, tx. split; [exact Hcreate|]. split; [exact Hadd|]. exact Hrest.
Qed.

(** The boolean [add_transaction] returns tells whether the chain grew: true
    means the argument was appended and marked confirmed, false means the
    chain is the same list and the argument was marked rejected; either way
    no other object is written to and the argument keeps its other fields. *)
Theorem add_transaction_outcome s r b s' :
  add_transaction s r = Some (b, s') →
  ∃ tx, heap s !! r = Some tx ∧
    chain s' = (if b then chain s ++ [r] else chain s) ∧
    heap s' = <[r := set_status tx (if b then "confirmed" else "rejected")]> (heap s) ∧
    pending_transactions s' = pending_transactions s ∧
    (∀ r0, r0 ≠ r → heap s' !! r0 = heap s !! r0) ∧
    (b = true ↔ tx_id tx ≠ "" ∧ timestamp tx ≠ "" ∧
                latest_hash s = Some (previous_hash tx)).
Proof.
  intros Hadd.
  destruct (add_transaction_effect s r b s' Hadd) as (tx & Hr & Hrest).
  exists tx. split; [exact Hr|]. exact Hrest.
Qed.

End LedgerExtras.

Section LedgerExtras2.
Context {Payload : Type} `{!JsonDumps Payload}.
Implicit Types (s : ledger_state Payload) (r : ref) (tx : BlockchainTransaction).

Lemma readd_tail_cases s r s1 :
  chain_live s → add_transaction s r = Some (true, s1) →
  ∃ tx b s2,
    heap s !! r = Some tx ∧
    add_transaction s1 r = Some (b, s2) ∧
    (b = true ↔ data_hash tx = previous_hash tx) ∧
    chain s2 = (if b then chain s ++ [r; r] else chain s ++ [r]).
Proof.
  intros Hlive Hadd.
  destruct (add_transaction_effect s r true s1 Hadd)
    as (tx & Hr & Hchain & Hheap & _ & _ & Hvalid).
  destruct Hvalid as [Hvalid _]. destruct (Hvalid eq_refl) as (Hid & Hts & Hprev).
  assert (heap s1 !! r = Some (set_status tx "confirmed")) as Hr1.
  { rewrite Hheap. apply list_lookup_insert_eq. by eapply lookup_lt_Some. }
  assert (latest_hash s1 = Some (data_hash tx)) as Hlatest.
  { unfold latest_hash. rewrite Hchain, last_snoc, Hr1. done. }
  destruct (add_transaction s1 r) as [[b s2]|] eqn:Hadd2.
  2:{ unfold add_transaction in Hadd2. rewrite Hr1 in Hadd2. simpl in Hadd2.
      unfold _validate_transaction in Hadd2. rewrite Hlatest in Hadd2. simpl in Hadd2.
      destruct (_ || _); [done|]. by case_bool_decide. }
  destruct (add_transaction_effect s1 r b s2 Hadd2)
    as (tx1 & Hr1' & Hchain2 & _ & _ & _ & Hvalid2).
  rewrite Hr1 in Hr1'. injection Hr1' as <-.
  exists tx, b, s2. split; [done|]. split; [done|]. split.
  - rewrite Hvalid2, Hlatest. simpl. split.
    + by intros (_ & _ & [=]).
    + intros Heq. by rewrite Heq.
  - rewrite Hchain2, Hchain. destruct b; [|done]. by rewrite <- app_assoc.
Qed.

(** Adding the object that is already the tail once more: accepted exactly
    when its [data_hash] equals its own [previous_hash]. *)
Theorem readd_tail s r s1 :
  chain_live s → add_transaction s r = Some (true, s1) →
  ∃ tx b s2,
    heap s !! r = Some tx ∧
    add_transaction s1 r = Some (b, s2) ∧
    (b = true ↔ data_hash tx = previous_hash tx) ∧
    chain s2 = (if b then chain s ++ [r; r] else chain s ++ [r]).
Proof.
  intros Hlive Hadd.
  destruct (readd_tail_cases s r s1 Hlive Hadd) as (tx & b & s2 & Hr & Hadd2 & Hrest).
  exists tx, b, s2. split; [exact Hr|]. split; [exact Hadd2|]. exact Hrest.
Qed.

(** A transaction created with the payload of its predecessor carries the
    same hash in [data_hash] and [previous_hash], and can be added twice. *)
Theorem same_payload_added_twice s op1 op2 (d : Payload) clk1 clk2 :
  chain_live s → now_isoformat clk1 ≠ "" → now_isoformat clk2 ≠ "" →
  ∃ r1 r2 s1 s2 s3 s4 s5,
    create_transaction s op1 d clk1 = Some (r1, s1) ∧
    add_transaction s1 r1 = Some (true, s2) ∧
    create_transaction s2 op2 d clk2 = Some (r2, s3) ∧
    add_transaction s3 r2 = Some (true, s4) ∧
    add_transaction s4 r2 = Some (true, s5) ∧
    chain s5 = chain s ++ [r1; r2; r2].
Proof.
  intros Hlive Hts1 Hts2.
  destruct (create_then_add s op1 d clk1 Hlive Hts1)
    as (r1 & s1 & s2 & tx1 & Hc1 & Ha1 & Hch2 & Hr1 & _ & _ & _ & Hl2 & Hlive2).
  destruct (create_then_add s2 op2 d clk2 Hlive2 Hts2)
    as (r2 & s3 & s4 & tx2 & Hc2 & Ha2 & Hch4 & Hr2 & _ & _ & Hp2 & _ & _).
  assert (chain_live s3) as Hlive3.
  { destruct (create_transaction_Some s2 op2 d clk2 Hlive2) as (prev & _ & Heq).
    rewrite Heq in Hc2. injection Hc2 as <- <-.
    eapply (chain_live_kept s2); [apply hashes_kept_alloc|done..]. }
  destruct (readd_tail_cases s3 r2 s4 Hlive3 Ha2) as (tx & b & s5 & Hr & Ha3 & Hb & Hch5).
  assert (b = true) as ->.
  { apply Hb.
    destruct (add_transaction_effect s3 r2 true s4 Ha2) as (tx' & Hr' & _ & Hh4 & _).
    rewrite Hr in Hr'. injection Hr' as <-.
    assert (tx2 = set_status tx "confirmed") as ->.
    { rewrite Hh4 in Hr2. rewrite list_lookup_insert_eq in Hr2 by (by eapply lookup_lt_Some).
      by injection Hr2. }
    simpl in Hp2.
    destruct (create_transaction_Some s2 op2 d clk2 Hlive2) as (prev & _ & Heq).
    rewrite Heq in Hc2. injection Hc2 as Hr2' <-. simpl in Hr.
    rewrite <- Hr2', list_lookup_middle in Hr by done. injection Hr as <-. simpl in *.
    rewrite Hl2 in Hp2. injection Hp2 as <-.
    destruct (create_transaction_Some s op1 d clk1 Hlive) as (prev1 & _ & Heq1).
    rewrite Heq1 in Hc1. injection Hc1 as Hr1' <-.
    destruct (add_transaction_effect _ _ _ _ Ha1) as (tx1' & Hr1'' & _ & Hh2 & _).
    simpl in Hr1''. rewrite <- Hr1', list_lookup_middle in Hr1'' by done.
    injection Hr1'' as <-.
    rewrite Hh2 in Hr1. rewrite list_lookup_insert_eq in Hr1.
    - by injection Hr1 as <-.
    - simpl. rewrite length_app. simpl. lia. }
  exists r1, r2, s1, s2, s3, s4, s5. repeat (split; [done|]).
  assert (chain s3 = chain s2) as Hch3.
  { destruct (create_transaction_Some s2 op2 d clk2 Hlive2) as (prev & _ & Heq).
    rewrite Heq in Hc2. by injection Hc2 as <- <-. }
  rewrite Hch5, Hch3, Hch2. by rewrite <- app_assoc.
Qed.

Lemma manifest_accuracy_latest s clk latest :
  latest_hash s = Some latest → _verify_manifest_accuracy s clk = Some true.
Proof.
  intros Hlatest.
  unfold _verify_manifest_accuracy, get_manifest. rewrite Hlatest. simpl.
  rewrite bool_decide_eq_false_2 by (intros Hne; by apply Hne).
  by rewrite bool_decide_eq_false_2 by (intros Hne; by apply Hne).
Qed.

(** The manifest check compares a manifest taken on the spot with the
    ledger it was taken from: it returns true on every ledger. *)
Theorem manifest_accuracy_always s clk :
  chain_live s → _verify_manifest_accuracy s clk = Some true.
Proof.
  intros Hlive. destruct (latest_hash_live s Hlive) as [latest Hlatest].
  exact (manifest_accuracy_latest s clk latest Hlatest).
Qed.

End LedgerExtras2.

Section VerifyExtras.
Context {Payload : Type}.
Implicit Types (s : ledger_state Payload) (r : ref) (tx : BlockchainTransaction)
  (txs : list BlockchainTransaction).

(** Reading the chain through the heap, entry by entry. *)
Lemma chain_objects_lookup s txs i :
  chain_objects s = Some txs →
  txs !! i = (chain s !! i) ≫= (λ r, heap s !! r).
Proof.
  unfold chain_objects. intros Hm%mapM_Some.
  destruct (chain s !! i) as [r|] eqn:Hi; simpl.
  - destruct (Forall2_lookup_l _ _ _ _ _ Hm Hi) as (tx & Htx & Hr). congruence.
  - apply lookup_ge_None. apply lookup_ge_None in Hi.
    by rewrite <- (Forall2_length _ _ _ Hm).
Qed.

Lemma chain_objects_live s :
  chain_live s → ∃ txs, chain_objects s = Some txs ∧ length txs = length (chain s).
Proof.
  intros Hlive. unfold chain_objects.
  assert (is_Some (mapM (λ r, heap s !! r) (chain s))) as [txs Htxs].
  { destruct (mapM (λ r, heap s !! r) (chain s)) as [txs|] eqn:Hm; [by eexists|].
    apply mapM_None_1, Exists_exists in Hm as (r & Hin & Hnone).
    unfold chain_live in Hlive. rewrite Forall_forall in Hlive.
    apply lookup_ge_None in Hnone. specialize (Hlive r Hin). simpl in Hlive. lia. }
  exists txs. split; [done|]. symmetry. by eapply length_mapM.
Qed.

Lemma linked_link_ok s txs :
  linked s → chain_objects s = Some txs → ∀ k, link_ok txs k = true.
Proof.
  intros Hl Hobj k. unfold link_ok.
  destruct (txs !! k) as [tx|] eqn:Hk; [|done].
  rewrite (chain_objects_lookup s txs k Hobj) in Hk.
  destruct (chain s !! k) as [r|] eqn:Hck; [|done]. simpl in Hk.
  destruct (Hl k r Hck) as (tx' & Hr & Hlink).
  rewrite Hr in Hk. injection Hk as ->.
  destruct k as [|j].
  - by apply bool_decide_eq_true.
  - destruct Hlink as (r' & p & Hj & Hr' & Hprev).
    rewrite (chain_objects_lookup s txs j Hobj), Hj. simpl. rewrite Hr'.
    by apply bool_decide_eq_true.
Qed.

(** The result of the verifier is settled by [spec_verify_chain]. *)
Lemma verify_consolidation_chain_spec s txs :
  chain_objects s = Some txs →
  verify_consolidation_chain s =
    Some (match spec_verify_chain txs with
          | Some i => (false, [break_message i])
          | None =>
              (true, if bool_decide (length txs = 0) then []
                     else [LogInfo "Consolidation chain verified successfully"])
          end).
Proof.
  intros Hobj. destruct (spec_verify_chain txs) as [i|] eqn:Hspec.
  - by apply (verify_consolidation_chain_break s txs).
  - unfold verify_consolidation_chain. rewrite Hobj. simpl.
    case_bool_decide; [done|].
    rewrite (verify_loop_ok txs txs 0); [done|done|].
    intros k _. by apply spec_verify_chain_None.
Qed.



End VerifyExtras.

(** Every ledger built from a new orchestrator by [create_transaction] and
    [add_transaction] calls passes [verify_consolidation_chain]. *)
Theorem built_ledger_verifies {Payload : Type} `{!JsonDumps Payload}
    (objs : list BlockchainTransaction) (calls : list (ledger_call Payload)) :
  calls_live (length objs) calls = true →
  ∃ s log, run (new_ledger objs) calls = Some s ∧
           verify_consolidation_chain s = Some (true, log).
Proof.
  intros Hcalls.
  destruct (run_inv calls (new_ledger objs)) as (s & Hrun & Hlive & Hl).
  - apply Forall_nil_2.
  - intros i r Hi. simpl in Hi. by rewrite lookup_nil in Hi.
  - done.
  - destruct (chain_objects_live s Hlive) as (txs & Hobj & _).
    exists s. eexists. split; [done|].
    rewrite (verify_consolidation_chain_spec s txs Hobj).
    assert (spec_verify_chain txs = None) as ->; [|done].
    apply spec_verify_chain_None. by apply (linked_link_ok s).
Qed.

(** * More on the merkle root *)

Lemma merkle_reduce_S (f : nat) (hashes : list string) :
  merkle_reduce (S f) hashes =
    if bool_decide (1 < length hashes)
    then merkle_reduce f (merkle_level hashes) else hashes.
Proof. done. Qed.

Lemma merkle_reduce_fuel (f : nat) : ∀ f' (hashes : list string),
  length hashes ≤ f → length hashes ≤ f' →
  merkle_reduce f hashes = merkle_reduce f' hashes.
Proof.
  induction f as [|f IH]; intros f' hashes Hf Hf'.
  - destruct hashes; [|simpl in Hf; lia]. by destruct f'.
  - destruct f' as [|f'].
    { destruct hashes; [done|simpl in Hf'; lia]. }
    simpl. case_bool_decide as Hmany; [|done].
    pose proof (merkle_level_length hashes). apply IH; lia.
Qed.

Lemma merkle_level_duplicate_last (n : nat) : ∀ (hashes : list string) h,
  length hashes = S (2 * n) → last hashes = Some h →
  merkle_level (hashes ++ [h]) = merkle_level hashes.
Proof.
  induction n as [|n IH]; intros hashes h Hlen Hlast.
  - destruct hashes as [|h1 [|]]; simplify_eq/=. done.
  - destruct hashes as [|h1 [|h2 rest]]; simplify_eq/=.
    f_equal. apply IH; [lia|]. destruct rest; [simpl in *; lia|done].
Qed.

(** A list of odd length, three or more, and the same list with its last
    element repeated have the same merkle root. *)
Theorem merkle_root_duplicate_last (n : nat) (transactions : list string) (t : string) :
  length transactions = S (2 * S n) → last transactions = Some t →
  calculate_merkle_root (transactions ++ [t]) = calculate_merkle_root transactions.
Proof.
  intros Hlen Hlast. unfold calculate_merkle_root.
  destruct transactions as [|t1 rest] eqn:Htx; [done|]. rewrite <- Htx in *.
  destruct (transactions ++ [t]) as [|t1' rest'] eqn:Happ.
  { by apply app_eq_nil in Happ as [_ ?]. }
  rewrite <- Happ. clear Happ.
  set (hs := calculate_hash <$> transactions).
  assert (length hs = S (2 * S n)) as Hhs by (unfold hs; by rewrite length_fmap).
  assert (calculate_hash <$> transactions ++ [t] = hs ++ [calculate_hash t]) as ->.
  { by rewrite fmap_app. }
  assert (last hs = Some (calculate_hash t)) as Hlasth.
  { unfold hs. by rewrite fmap_last, Hlast. }
  pose proof (merkle_level_length hs) as Hlevel.
  assert (merkle_reduce (length (hs ++ [calculate_hash t])) (hs ++ [calculate_hash t])
          = merkle_reduce (length hs) (merkle_level hs)) as ->.
  { rewrite length_app. replace (length hs + length [calculate_hash t])
      with (S (length hs)) by (simpl; lia).
    rewrite merkle_reduce_S.
    rewrite bool_decide_eq_true_2 by (rewrite length_app; simpl; lia).
    by rewrite (merkle_level_duplicate_last (S n) hs _ Hhs Hlasth). }
  assert (merkle_reduce (length hs) hs
          = merkle_reduce (length hs) (merkle_level hs)) as ->; [|done].
  destruct (length hs) as [|m] eqn:Hm; [lia|].
  rewrite (merkle_reduce_S m hs), bool_decide_eq_true_2 by lia.
  apply merkle_reduce_fuel; lia.
Qed.

(** * More on the coordinator *)

Section TimelineExtras.
Implicit Types (c : TemporalCoordinator) (l : list TemporalEvent) (e : TemporalEvent).

Lemma insert_by_sequence_perm e l : insert_by_sequence e l ≡ₚ e :: l.
Proof.
  induction l as [|y l IH]; simpl; [done|].
  case_bool_decide; [done|]. rewrite IH. apply Permutation_swap.
Qed.

Lemma insert_by_sequence_sorted e l :
  by_sequence l → by_sequence (insert_by_sequence e l).
Proof.
  unfold by_sequence. induction 1 as [|y l Hl IH Hy]; simpl.
  { repeat constructor. }
  case_bool_decide as Hle.
  - constructor; [by constructor|]. constructor; [done|].
    eapply Forall_impl; [exact Hy|]. intros z Hz. simpl in *. lia.
  - constructor; [done|].
    rewrite (insert_by_sequence_perm e l). constructor; [lia|done].
Qed.

Lemma sorted_by_sequence_perm l : sorted_by_sequence l ≡ₚ l.
Proof.
  induction l as [|e l IH]; simpl; [done|].
  by rewrite insert_by_sequence_perm, IH.
Qed.

Lemma sorted_by_sequence_sorted l : by_sequence (sorted_by_sequence l).
Proof.
  induction l as [|e l IH]; simpl; [constructor|].
  by apply insert_by_sequence_sorted.
Qed.

(** Asked for no agent, or for the empty name, [get_event_timeline] gives
    all the events, each once, in order of sequence number; asked for a
    named agent it gives that agent's events, in the order they were
    registered. *)
Theorem get_event_timeline_result c (who : option string) :
  (who = None ∨ who = Some "" →
     get_event_timeline c who ≡ₚ events c ∧ by_sequence (get_event_timeline c who)) ∧
  (∀ a, who = Some a → a ≠ "" →
     get_event_timeline c who = filter (λ e, agent e = a) (events c) ∧
     (∀ e, e ∈ get_event_timeline c who ↔ e ∈ events c ∧ agent e = a) ∧
     get_event_timeline c who `sublist_of` events c).
Proof.
  split.
  - intros Hwho.
    assert (get_event_timeline c who = sorted_by_sequence (events c)) as ->.
    { destruct Hwho as [->| ->]; [done|]. unfold get_event_timeline.
      by rewrite bool_decide_eq_false_2 by (intros Hne; by apply Hne). }
    split; [apply sorted_by_sequence_perm|apply sorted_by_sequence_sorted].
  - intros a -> Ha. unfold get_event_timeline. rewrite bool_decide_eq_true_2 by done.
    split; [done|]. split.
    + intros e. rewrite list_elem_of_filter. tauto.
    + apply sublist_filter.
Qed.

End TimelineExtras.

Section ExclusionFacts.
Implicit Types (c : TemporalCoordinator) (s : coordination) (agents : list string).





Lemma dense_take_turn s t :
  dense (coordinator s) → dense (coordinator (take_turn s t)).
Proof.
  intros Hd. destruct t as [ty who d clk|op agents t0 t1|k slept t2]; simpl.
  - by apply dense_register_event.
  - unfold coordinate_begin. destruct (existsb _ _); [done|]. simpl.
    by apply (dense_register_event (with_locks _ _)).
  - destruct (waiting s !! k) as [call|]; [|done]. simpl.
    destruct slept; simpl; [|done].
    by apply (dense_register_event (with_locks _ _)).
Qed.

End ExclusionFacts.


(** The events registered by [coordinate_operation] calls take part in the
    numbering: under any interleaving the stored sequence numbers are
    1, 2, ..., N and [_verify_temporal_consistency] returns true. *)
Theorem coordination_sequence_dense (turns : list turn) :
  sequence <$> events (coordinator (take_turns new_coordination turns))
    = seq 1 (length (events (coordinator (take_turns new_coordination turns)))) ∧
  _verify_temporal_consistency (coordinator (take_turns new_coordination turns)) = true.
Proof.
  assert (∀ s, dense (coordinator s) → dense (coordinator (take_turns s turns))) as Hall.
  { unfold take_turns. induction turns as [|t turns IH]; intros s Hs; [done|].
    simpl. by apply IH, dense_take_turn. }
  assert (dense (coordinator (take_turns new_coordination turns))) as Hd.
  { by apply Hall. }
  split; [|by apply dense_verified].
  unfold dense in Hd. rewrite Hd.
  apply (f_equal length) in Hd. rewrite length_fmap, length_seq in Hd. by rewrite Hd.
Qed.

(** A [coordinate_operation] call that nothing interleaves with and that
    finds its agents free: the locks of other agents are not touched, each
    agent it was called with ends with an entry [False] in the lock table,
    and it registers [coordination_start] and, unless the awaited step
    raised, [coordination_complete]. *)
Theorem coordinate_operation_effect (c : TemporalCoordinator) (op : string)
    (agents : list string) (t0 t1 t2 : instant) (slept : awaited) :
  existsb (locked c) agents = false →
  ∃ b c', coordinate_operation c op agents t0 t1 slept t2 = (b, c') ∧
    (∀ a, a ∉ agents → coordination_locks c' !! a = coordination_locks c !! a) ∧
    (∀ a, a ∈ agents → coordination_locks c' !! a = Some false) ∧
    event_type <$> events c' =
      (event_type <$> events c) ++
      (match slept with
       | Completed => ["coordination_start"; "coordination_complete"]
       | Raised _ => ["coordination_start"]
       end) ∧
    (∀ e, e ∈ drop (length (events c)) (events c') → agent e = "chronos").
Proof.
  intros Hfree. unfold coordinate_operation, coordinate_begin. rewrite Hfree.
  assert (∀ a locks, set_locks false agents (set_locks true agents locks) !! a
            = if decide (a ∈ agents) then Some false else locks !! a) as Hlocks.
  { intros a locks. rewrite !lookup_set_locks. by destruct (decide (a ∈ agents)). }
  destruct slept as [|err]; simpl; eexists _, _; (split; [done|]); simpl;
    (split; [intros a Ha; rewrite Hlocks; by destruct (decide (a ∈ agents))|]);
    (split; [intros a Ha; rewrite Hlocks; by destruct (decide (a ∈ agents))|]).
  - split; [by rewrite !fmap_app, <- app_assoc|].
    intros e. rewrite <- app_assoc, drop_app_length.
    intros [->|[->|[]%elem_of_nil]%elem_of_cons]%elem_of_cons; done.
  - split; [by rewrite !fmap_app|].
    intros e. rewrite drop_app_length.
    intros [->|[]%elem_of_nil]%elem_of_cons; done.
Qed.

(** * More on the proof engine *)

Section ProofExtras.
Implicit Types (e : ProofEngine) (p q : ConsolidationProof) (id : string)
  (fs : gmap string file_entry) (files : list string).

Lemma finalize_proof_writes_one e id files fs i p :
  find_proof e id = Some (i, p) →
  ∃ p', proofs (snd (finalize_proof e id files fs)) = <[i := p']> (proofs e) ∧
        proof_id p' = proof_id p ∧ proof_operation p' = proof_operation p ∧
        files_affected p' = files_affected p ∧ before_hash p' = before_hash p ∧
        proof_timestamp p' = proof_timestamp p ∧
        (∀ j, j ≠ i → proofs (snd (finalize_proof e id files fs)) !! j = proofs e !! j) ∧
        proof_id <$> proofs (snd (finalize_proof e id files fs)) = proof_id <$> proofs e.
Proof.
  intros Hfind. unfold finalize_proof. rewrite Hfind. simpl.
  eexists. split; [done|]. simpl. repeat (split; [done|]). split.
  - intros j Hne. by apply list_lookup_insert_ne.
  - apply find_proof_Some in Hfind as [Hi _].
    rewrite list_fmap_insert. simpl. apply list_insert_id.
    by rewrite list_lookup_fmap, Hi.
Qed.

(** [finalize_proof] writes to one proof, the first with the id, and there
    to [after_hash] and [verified] only; ids, positions and the number of
    proofs stay. *)
Theorem finalize_proof_frame e id files fs i p :
  find_proof e id = Some (i, p) →
  ∃ p', proofs (snd (finalize_proof e id files fs)) = <[i := p']> (proofs e) ∧
        proof_id p' = proof_id p ∧ proof_operation p' = proof_operation p ∧
        files_affected p' = files_affected p ∧ before_hash p' = before_hash p ∧
        proof_timestamp p' = proof_timestamp p ∧
        (∀ j, j ≠ i → proofs (snd (finalize_proof e id files fs)) !! j = proofs e !! j) ∧
        proof_id <$> proofs (snd (finalize_proof e id files fs)) = proof_id <$> proofs e.
Proof.
  intros Hfind.
  destruct (finalize_proof_writes_one e id files fs i p Hfind) as (p' & Hp' & Hrest).
  exists p'. split; [exact Hp'|]. exact Hrest.
Qed.

Lemma find_proof_after_finalize e id files fs i p :
  find_proof e id = Some (i, p) →
  ∃ p', find_proof (snd (finalize_proof e id files fs)) id = Some (i, p').
Proof.
  intros Hfind.
  destruct (find_proof_finalized e id i p files fs Hfind) as (p' & Hp' & _).
  by exists p'.
Qed.

(** When two proofs carry the same id, only the first is ever finalized:
    whatever [finalize_proof] calls are made for that id, every other
    proof stays exactly as it is. *)
Theorem duplicate_id_never_finalized
    (calls : list (list string * gmap string file_entry)) : ∀ e id i p j q,
  find_proof e id = Some (i, p) → proofs e !! j = Some q → j ≠ i →
  proofs (finalize_all e id calls) !! j = Some q.
Proof.
  unfold finalize_all.
  induction calls as [|[files fs] calls IH]; intros e id i p j q Hfind Hj Hne; [done|].
  simpl.
  destruct (find_proof_after_finalize e id files fs i p Hfind) as (p' & Hfind').
  apply (IH _ id i p'); [done| |done].
  destruct (finalize_proof_writes_one e id files fs i p Hfind) as (_ & _ & _ & _ & _ & _ & _ & Hframe & _).
  by rewrite Hframe.
Qed.

Lemma find_proof_generated e op files fs clk :
  (∀ p, p ∈ proofs e →
        proof_id p ≠ proof_id (fst (generate_consolidation_proof e op files fs clk))) →
  find_proof (snd (generate_consolidation_proof e op files fs clk))
    (proof_id (fst (generate_consolidation_proof e op files fs clk)))
  = Some (length (proofs e), fst (generate_consolidation_proof e op files fs clk)).
Proof.
  intros Hfresh. unfold find_proof. simpl. apply list_find_Some.
  split; [by apply list_lookup_middle|]. split; [done|].
  intros j y Hj Hlt. rewrite lookup_app_l in Hj by done.
  apply (Hfresh y). by eapply list_elem_of_lookup_2.
Qed.

(** A proof generated under a new id and then finalized is verified
    exactly when its fileset is not empty and the two state hashes differ;
    a verified proof therefore means that the bytes read at the two times
    differ. *)
Theorem proof_lifecycle e op files fs1 clk files2 fs2 :
  (∀ p, p ∈ proofs e →
        proof_id p ≠ proof_id (fst (generate_consolidation_proof e op files fs1 clk))) →
  ∃ id e1 e2,
    id = proof_id (fst (generate_consolidation_proof e op files fs1 clk)) ∧
    e1 = snd (generate_consolidation_proof e op files fs1 clk) ∧
    verify_integrity e1 id = false ∧
    finalize_proof e1 id files2 fs2 = (true, e2) ∧
    (verify_integrity e2 id = true ↔
       files ≠ [] ∧ state_hash fs1 files ≠ state_hash fs2 files2) ∧
    (verify_integrity e2 id = true →
       foldr String.append "" (read_files fs1 files)
       ≠ foldr String.append "" (read_files fs2 files2)).
Proof.
  intros Hfresh.
  pose proof (find_proof_generated e op files fs1 clk Hfresh) as Hfind.
  set (g := generate_consolidation_proof e op files fs1 clk) in *.
  exists (proof_id (fst g)), (snd g), (snd (finalize_proof (snd g) (proof_id (fst g)) files2 fs2)).
  split; [done|]. split; [done|]. split.
  { unfold verify_integrity. by rewrite Hfind. }
  destruct (find_proof_finalized _ _ _ _ files2 fs2 Hfind)
    as (p' & Hfind' & Hb & Hv & Ha & Hbefore & Hfiles).
  split.
  { destruct (finalize_proof _ _ _ _) as [b e2]. simpl in *. by subst b. }
  assert (verify_integrity (snd (finalize_proof (snd g) (proof_id (fst g)) files2 fs2))
            (proof_id (fst g)) = true ↔
          files ≠ [] ∧ state_hash fs1 files ≠ state_hash fs2 files2) as Hiff.
  { rewrite verify_integrity_true. split.
    - intros (i & p & Hp & _ & Hne & Hnil). rewrite Hfind' in Hp. injection Hp as <- <-.
      rewrite Hfiles in Hnil. rewrite Hbefore, Ha in Hne. done.
    - intros [Hnil Hne]. exists (length (proofs e)), p'.
      split; [done|]. split; [done|]. rewrite Hfiles, Hbefore, Ha. done. }
  split; [done|].
  intros [_ Hne]%Hiff Heq. apply Hne. unfold state_hash. by rewrite Heq.
Qed.

(** Files that are missing or cannot be read contribute nothing: a fileset
    without a readable file hashes like no file at all. *)
Theorem state_hash_unreadable fs files :
  (∀ f, f ∈ files → fs !! f = None ∨ fs !! f = Some Unreadable) →
  read_files fs files = [] ∧
  state_hash fs files = state_hash fs [] ∧
  state_hash fs files
    = "e3b0c44298fc1c149afbf4c8996fb92427ae41e4649b934ca495991b7852b855".
Proof.
  intros Hnone.
  assert (read_files fs files = []) as Hread.
  { unfold read_files. induction files as [|f files IH]; [done|]. simpl.
    destruct (Hnone f) as [-> | ->]; [apply elem_of_cons; by left|..]; simpl;
      apply IH; intros f' Hf'; apply Hnone, elem_of_cons; by right. }
  split; [done|]. unfold state_hash. rewrite Hread. simpl.
  split; [done|]. vm_compute. reflexivity.
Qed.

Lemma verify_proofs_loop_true e (l : list ConsolidationProof) :
  verify_proofs_loop e l = true ↔
  ∀ p, p ∈ l → verify_integrity e (proof_id p) = true.
Proof.
  induction l as [|p l IH]; simpl.
  - split; [|done]. intros _ p Hp. by apply elem_of_nil in Hp.
  - destruct (verify_integrity e (proof_id p)) eqn:Hp; simpl.
    + rewrite IH. split.
      * intros Hall q [->|Hq]%elem_of_cons; [done|by apply Hall].
      * intros Hall q Hq. apply Hall, elem_of_cons. by right.
    + split; [done|]. intros Hall. rewrite <- Hp. apply Hall, elem_of_cons. by left.
Qed.

(** [_verify_all_proofs] is true exactly when [verify_integrity] holds for
    the id of every stored proof; with no proof stored it is true. *)
Theorem verify_all_proofs_iff e :
  (_verify_all_proofs e = true ↔
   ∀ p, p ∈ proofs e → verify_integrity e (proof_id p) = true) ∧
  (proofs e = [] → _verify_all_proofs e = true).
Proof.
  split; [apply verify_proofs_loop_true|].
  intros Hnil. unfold _verify_all_proofs. by rewrite Hnil.
Qed.

Lemma pending_proofs_fail e op files fs clk :
  (∀ p, p ∈ proofs e →
        proof_id p ≠ proof_id (fst (generate_consolidation_proof e op files fs clk))) →
  _verify_all_proofs (snd (generate_consolidation_proof e op files fs clk)) = false.
Proof.
  intros Hfresh. apply not_true_is_false. intros Hall.
  pose proof (proj1 (verify_proofs_loop_true _ _) Hall) as Hall'. clear Hall.
  rename Hall' into Hall.
  pose proof (find_proof_generated e op files fs clk Hfresh) as Hfind.
  specialize (Hall (fst (generate_consolidation_proof e op files fs clk))).
  unfold verify_integrity in Hall. rewrite Hfind in Hall. simpl in Hall.
  assert (false = true) as Habs; [|done].
  apply Hall. simpl. apply elem_of_app. right. by apply list_elem_of_singleton.
Qed.

(** As long as a proof generated under a new id has not been finalized,
    [_verify_all_proofs] returns false. *)
Theorem pending_proof_fails_all e op files fs clk :
  (∀ p, p ∈ proofs e →
        proof_id p ≠ proof_id (fst (generate_consolidation_proof e op files fs clk))) →
  _verify_all_proofs (snd (generate_consolidation_proof e op files fs clk)) = false.
Proof.
  intros Hfresh. apply not_true_is_false. intros Hall.
  by rewrite (pending_proofs_fail e op files fs clk Hfresh) in Hall.
Qed.

(** Every proof is counted once in the report: as verified or as pending. *)
Theorem proof_stats_partition e :
  total_proofs (proof_stats e) = verified_proofs (proof_stats e) + pending_proofs (proof_stats e) ∧
  (pending_proofs (proof_stats e) = 0 ↔ ∀ p, p ∈ proofs e → verified p = true).
Proof.
  unfold proof_stats. simpl.
  assert (∀ l : list ConsolidationProof,
            length l = length (filter (λ p, verified p = true) l)
                       + length (filter (λ p, verified p = false) l) ∧
            (length (filter (λ p, verified p = false) l) = 0 ↔
             ∀ p, p ∈ l → verified p = true)) as Hl.
  { induction l as [|p l [IH1 IH2]].
    - split; [done|]. split; [|done]. intros _ p Hp. by apply elem_of_nil in Hp.
    - rewrite !filter_cons. destruct (verified p) eqn:Hp.
      + rewrite decide_True by done. rewrite decide_False by done. simpl.
        split; [lia|]. rewrite IH2. split.
        * intros Hall q [->|Hq]%elem_of_cons; [done|by apply Hall].
        * intros Hall q Hq. apply Hall, elem_of_cons. by right.
      + rewrite decide_False by done. rewrite decide_True by done. simpl.
        split; [lia|]. split; [done|]. intros Hall.
        assert (verified p = true) by (apply Hall, elem_of_cons; by left). congruence. }
  apply Hl.
Qed.

End ProofExtras.

(** * Instances of the further theorems *)

Lemma one_transaction_ledger_live : chain_live one_transaction_ledger.
Proof. apply Forall_singleton. simpl. lia. Qed.

Lemma clock1_isoformat : now_isoformat clock1 ≠ "".
Proof. discriminate. Qed.

Lemma create_then_add_accepted_witness :
  chain_live one_transaction_ledger ∧ now_isoformat clock1 ≠ "" ∧
  ∃ r s1 s2 tx,
    create_transaction one_transaction_ledger "scan" "{}" clock1 = Some (r, s1) ∧
    add_transaction s1 r = Some (true, s2) ∧
    chain s2 = chain one_transaction_ledger ++ [r] ∧
    heap s2 !! r = Some tx ∧ status tx = "confirmed" ∧
    operation tx = "scan" ∧
    latest_hash one_transaction_ledger = Some (previous_hash tx) ∧
    latest_hash s2 = Some (data_hash tx) ∧
    chain_live s2.
Proof.
  split; [exact one_transaction_ledger_live|]. split; [exact clock1_isoformat|].
  apply create_then_add_accepted;
    [exact one_transaction_ledger_live|exact clock1_isoformat].
Defined.

Lemma add_transaction_outcome_witness :
  ∃ s', add_transaction one_transaction_ledger 0 = Some (false, s') ∧
  ∃ tx, heap one_transaction_ledger !! 0 = Some tx ∧
    chain s' = chain one_transaction_ledger ∧
    heap s' = <[0 := set_status tx "rejected"]> (heap one_transaction_ledger) ∧
    pending_transactions s' = pending_transactions one_transaction_ledger ∧
    (∀ r0, r0 ≠ 0 → heap s' !! r0 = heap one_transaction_ledger !! r0) ∧
    (false = true ↔ tx_id tx ≠ "" ∧ timestamp tx ≠ "" ∧
                    latest_hash one_transaction_ledger = Some (previous_hash tx)).
Proof.
  eexists. split; [reflexivity|].
  apply (add_transaction_outcome (Payload := string) one_transaction_ledger 0 false).
  reflexivity.
Defined.

Lemma readd_tail_witness :
  chain_live one_pending_ledger ∧
  ∃ s1, add_transaction one_pending_ledger 0 = Some (true, s1) ∧
  ∃ tx b s2,
    heap one_pending_ledger !! 0 = Some tx ∧
    add_transaction s1 0 = Some (b, s2) ∧
    (b = true ↔ data_hash tx = previous_hash tx) ∧
    chain s2 = (if b then chain one_pending_ledger ++ [0; 0]
                else chain one_pending_ledger ++ [0]).
Proof.
  split; [apply Forall_nil_2|]. eexists. split; [reflexivity|].
  apply (readd_tail (Payload := string) one_pending_ledger 0).
  - apply Forall_nil_2.
  - reflexivity.
Defined.

Lemma same_payload_added_twice_witness :
  chain_live one_transaction_ledger ∧ now_isoformat clock0 ≠ "" ∧
  now_isoformat clock1 ≠ "" ∧
  ∃ r1 r2 s1 s2 s3 s4 s5,
    create_transaction one_transaction_ledger "scan" genesis_payload clock0 = Some (r1, s1) ∧
    add_transaction s1 r1 = Some (true, s2) ∧
    create_transaction s2 "scan" genesis_payload clock1 = Some (r2, s3) ∧
    add_transaction s3 r2 = Some (true, s4) ∧
    add_transaction s4 r2 = Some (true, s5) ∧
    chain s5 = chain one_transaction_ledger ++ [r1; r2; r2].
Proof.
  split; [exact one_transaction_ledger_live|].
  split; [discriminate|]. split; [exact clock1_isoformat|].
  apply same_payload_added_twice;
    [exact one_transaction_ledger_live|discriminate|exact clock1_isoformat].
Defined.

Lemma manifest_accuracy_always_witness :
  chain_live one_transaction_ledger ∧
  _verify_manifest_accuracy one_transaction_ledger clock0 = Some true.
Proof.
  split; [exact one_transaction_ledger_live|].
  apply manifest_accuracy_always. exact one_transaction_ledger_live.
Defined.


Lemma built_ledger_verifies_witness :
  calls_live 0 (four_transactions ++ [AddTransaction 0]) = true ∧
  ∃ s log, run (new_ledger []) (four_transactions ++ [AddTransaction 0]) = Some s ∧
           verify_consolidation_chain s = Some (true, log).
Proof.
  split; [reflexivity|].
  apply (built_ledger_verifies (Payload := string) []). reflexivity.
Defined.

Lemma merkle_root_duplicate_last_witness :
  length ["a"; "b"; "c"] = 3 ∧ last ["a"; "b"; "c"] = Some "c" ∧
  calculate_merkle_root (["a"; "b"; "c"] ++ ["c"]) = calculate_merkle_root ["a"; "b"; "c"].
Proof.
  split; [reflexivity|]. split; [reflexivity|].
  apply (merkle_root_duplicate_last 0); reflexivity.
Defined.

Lemma get_event_timeline_result_witness :
  agent <$> get_event_timeline (register_all new_coordinator three_registrations)
              (Some "ananke") = ["ananke"] ∧
  get_event_timeline (register_all new_coordinator three_registrations) (Some "")
    ≡ₚ events (register_all new_coordinator three_registrations).
Proof.
  split; [reflexivity|].
  apply (get_event_timeline_result
           (register_all new_coordinator three_registrations) (Some "")).
  by right.
Defined.


Lemma coordination_sequence_dense_witness :
  sequence <$> events (coordinator (take_turns new_coordination overlapping_turns))
    = [1; 2; 3; 4] ∧
  _verify_temporal_consistency
    (coordinator (take_turns new_coordination overlapping_turns)) = true.
Proof.
  split; [reflexivity|]. apply (coordination_sequence_dense overlapping_turns).
Defined.

Lemma coordinate_operation_effect_witness :
  existsb (locked new_coordinator) ["A"; "B"] = false ∧
  ∃ b c', coordinate_operation new_coordinator "merge" ["A"; "B"] clock0 clock0
            (Raised "boom") clock1 = (b, c') ∧
    (∀ a, a ∉ ["A"; "B"] →
          coordination_locks c' !! a = coordination_locks new_coordinator !! a) ∧
    (∀ a, a ∈ ["A"; "B"] → coordination_locks c' !! a = Some false) ∧
    event_type <$> events c' =
      (event_type <$> events new_coordinator) ++ ["coordination_start"] ∧
    (∀ e, e ∈ drop (length (events new_coordinator)) (events c') → agent e = "chronos").
Proof.
  split; [reflexivity|].
  apply (coordinate_operation_effect new_coordinator "merge" ["A"; "B"]
           clock0 clock0 clock1 (Raised "boom")).
  reflexivity.
Defined.

Lemma finalize_proof_frame_witness :
  ∃ p, find_proof sample_engine sample_proof_id = Some (0, p) ∧
  ∃ p', proofs (snd (finalize_proof sample_engine sample_proof_id ["a.py"]
                       (one_file "x = 2")))
          = <[0 := p']> (proofs sample_engine) ∧
        proof_id p' = proof_id p ∧ proof_operation p' = proof_operation p ∧
        files_affected p' = files_affected p ∧ before_hash p' = before_hash p ∧
        proof_timestamp p' = proof_timestamp p ∧
        (∀ j, j ≠ 0 →
           proofs (snd (finalize_proof sample_engine sample_proof_id ["a.py"]
                          (one_file "x = 2"))) !! j = proofs sample_engine !! j) ∧
        proof_id <$> proofs (snd (finalize_proof sample_engine sample_proof_id ["a.py"]
                                    (one_file "x = 2")))
          = proof_id <$> proofs sample_engine.
Proof.
  eexists. split; [vm_compute; reflexivity|].
  apply finalize_proof_frame. vm_compute. reflexivity.
Defined.

Lemma duplicate_id_never_finalized_witness :
  ∃ p q, find_proof engine_with_duplicates sample_proof_id = Some (0, p) ∧
         proofs engine_with_duplicates !! 1 = Some q ∧
         proof_id q = sample_proof_id ∧ verified q = false ∧ 1 ≠ 0 ∧
         proofs (finalize_all engine_with_duplicates sample_proof_id
                   [(["b.py"], one_file "x = 2"); (["b.py"], one_file "x = 3")]) !! 1
           = Some q.
Proof.
  eexists _, _. split; [vm_compute; reflexivity|]. split; [vm_compute; reflexivity|].
  split; [vm_compute; reflexivity|]. split; [reflexivity|]. split; [done|].
  eapply (duplicate_id_never_finalized _ engine_with_duplicates sample_proof_id 0 _ 1);
    [vm_compute; reflexivity|vm_compute; reflexivity|done].
Defined.

Lemma empty_engine_fresh (id : string) : ∀ p, p ∈ proofs empty_engine → proof_id p ≠ id.
Proof. intros p Hp. by apply elem_of_nil in Hp. Qed.

Lemma proof_lifecycle_witness :
  (∀ p, p ∈ proofs empty_engine →
        proof_id p ≠ proof_id (fst (generate_consolidation_proof empty_engine "merge"
                                      ["a.py"] (one_file "x = 1") clock0))) ∧
  ∃ id e1 e2,
    id = proof_id (fst (generate_consolidation_proof empty_engine "merge" ["a.py"]
                          (one_file "x = 1") clock0)) ∧
    e1 = snd (generate_consolidation_proof empty_engine "merge" ["a.py"]
                (one_file "x = 1") clock0) ∧
    verify_integrity e1 id = false ∧
    finalize_proof e1 id ["a.py"] (one_file "x = 2") = (true, e2) ∧
    (verify_integrity e2 id = true ↔
       ["a.py"] ≠ [] ∧
       state_hash (one_file "x = 1") ["a.py"] ≠ state_hash (one_file "x = 2") ["a.py"]) ∧
    (verify_integrity e2 id = true →
       foldr String.append "" (read_files (one_file "x = 1") ["a.py"])
       ≠ foldr String.append "" (read_files (one_file "x = 2") ["a.py"])).
Proof.
  split; [apply empty_engine_fresh|].
  apply proof_lifecycle. apply empty_engine_fresh.
Defined.

Lemma state_hash_unreadable_witness :
  (∀ f, f ∈ ["gone.py"; "locked.py"] →
        (<["locked.py" := Unreadable]> (one_file "x = 1")) !! f = None ∨
        (<["locked.py" := Unreadable]> (one_file "x = 1")) !! f = Some Unreadable) ∧
  read_files (<["locked.py" := Unreadable]> (one_file "x = 1")) ["gone.py"; "locked.py"] = [] ∧
  state_hash (<["locked.py" := Unreadable]> (one_file "x = 1")) ["gone.py"; "locked.py"]
    = state_hash (<["locked.py" := Unreadable]> (one_file "x = 1")) [] ∧
  state_hash (<["locked.py" := Unreadable]> (one_file "x = 1")) ["gone.py"; "locked.py"]
    = "e3b0c44298fc1c149afbf4c8996fb92427ae41e4649b934ca495991b7852b855".
Proof.
  assert (∀ f, f ∈ ["gone.py"; "locked.py"] →
            (<["locked.py" := Unreadable]> (one_file "x = 1")) !! f = None ∨
            (<["locked.py" := Unreadable]> (one_file "x = 1")) !! f = Some Unreadable) as H.
  { intros f [->|[->|[]%elem_of_nil]%elem_of_cons]%elem_of_cons;
      [left|right]; vm_compute; reflexivity. }
  split; [exact H|]. apply state_hash_unreadable. exact H.
Defined.

Lemma verify_all_proofs_iff_witness :
  _verify_all_proofs empty_engine = true ∧ _verify_all_proofs sample_engine = false.
Proof.
  split.
  - apply (verify_all_proofs_iff empty_engine). reflexivity.
  - vm_compute. reflexivity.
Defined.

Lemma pending_proof_fails_all_witness :
  (∀ p, p ∈ proofs empty_engine →
        proof_id p ≠ proof_id (fst (generate_consolidation_proof empty_engine "merge"
                                      ["a.py"] (one_file "x = 1") clock0))) ∧
  _verify_all_proofs (snd (generate_consolidation_proof empty_engine "merge"
                             ["a.py"] (one_file "x = 1") clock0)) = false.
Proof.
  split; [apply empty_engine_fresh|].
  apply pending_proof_fails_all. apply empty_engine_fresh.
Defined.

Lemma proof_stats_partition_witness :
  total_proofs (proof_stats engine_with_duplicates) = 2 ∧
  total_proofs (proof_stats engine_with_duplicates)
    = verified_proofs (proof_stats engine_with_duplicates)
      + pending_proofs (proof_stats engine_with_duplicates).
Proof.
  split; [reflexivity|]. apply (proof_stats_partition engine_with_duplicates).
Defined.

(** * DLTOperations and ChronosService *)

Section CreateAdd.
Context {Payload : Type} `{!JsonDumps Payload}.
Implicit Types (s : ledger_state Payload).

Lemma create_then_add_explicit s op (d : Payload) clk :
  chain_live s → now_isoformat clk ≠ "" →
  ∃ prev s1,
    latest_hash s = Some prev ∧
    create_transaction s op d clk = Some (length (heap s), s1) ∧
    add_transaction s1 (length (heap s))
      = Some (true, appended s (confirmed_transaction s op d clk prev)).
Proof.
  intros Hlive Hts.
  destruct (create_transaction_Some s op d clk Hlive) as (prev & Hprev & Hc).
  eexists prev, _. split; [done|]. split; [exact Hc|].
  match goal with |- add_transaction ?s1 _ = _ => set (s1' := s1) end.
  assert (heap s1' !! length (heap s)
          = Some (set_status (confirmed_transaction s op d clk prev) "pending")) as Hr.
  { by apply list_lookup_middle. }
  assert (latest_hash s1' = Some prev) as Hprev1.
  { unfold latest_hash in *. simpl. destruct (last (chain s)) as [r0|] eqn:Hlast; [|done].
    destruct (heap s !! r0) as [t0|] eqn:Hr0; [|done].
    by rewrite (lookup_app_l_Some _ _ _ _ Hr0). }
  assert (_validate_transaction s1' (set_status (confirmed_transaction s op d clk prev) "pending")
          = Some true) as Hok.
  { apply validate_true. split; [apply calculate_hash_nonempty|]. split; done. }
  rewrite (add_transaction_unfold _ _ _ _ Hr Hok). unfold appended. simpl.
  do 3 f_equal.
  rewrite insert_app_r_alt by done. by rewrite Nat.sub_diag.
Qed.

Lemma appended_live s tx : chain_live s → chain_live (appended s tx).
Proof.
  intros Hlive. unfold chain_live, appended. simpl. apply Forall_app. split.
  - eapply Forall_impl; [exact Hlive|]. intros r Hr. simpl in *.
    rewrite length_app. lia.
  - apply Forall_singleton. rewrite length_app. simpl. lia.
Qed.

Lemma appended_linked s tx :
  chain_live s → linked s → latest_hash s = Some (previous_hash tx) →
  linked (appended s tx).
Proof.
  intros Hlive Hl Hprev i r Hi. unfold appended in *. simpl in *.
  apply lookup_snoc_Some in Hi as [[Hlt Hi]|[-> <-]].
  - destruct (Hl i r Hi) as (tx0 & Hr & Hlink).
    exists tx0. split; [by apply lookup_app_l_Some|].
    destruct i as [|j]; [done|].
    destruct Hlink as (r' & p & Hj & Hr' & Hpp).
    exists r', p. split; [by apply lookup_app_l_Some|].
    split; [by apply lookup_app_l_Some|done].
  - exists tx. split; [by apply list_lookup_middle|].
    unfold latest_hash in Hprev. rewrite last_lookup in Hprev.
    destruct (length (chain s)) as [|j] eqn:Hlen; simpl in Hprev.
    + apply nil_length_inv in Hlen. rewrite Hlen in Hprev. simpl in Hprev. congruence.
    + destruct (chain s !! j) as [r'|] eqn:Hj.
      2:{ apply lookup_ge_None in Hj. lia. }
      destruct (heap s !! r') as [p|] eqn:Hr'; simpl in Hprev; [|done].
      exists r', p. split; [by apply lookup_app_l_Some|].
      split; [by apply lookup_app_l_Some|congruence].
Qed.

End CreateAdd.

Section ServiceFacts.
Context `{!JsonDumps doc}.
Implicit Types (s : ledger_state doc) (svc : ChronosService).

Lemma record_consolidation_event_explicit s event_data clk :
  chain_live s → now_isoformat clk ≠ "" →
  ∃ d prev,
    latest_hash s = Some prev ∧
    record_consolidation_event s event_data clk
      = Some (tx_id (confirmed_transaction s "consolidation_event" d clk prev),
              appended s (confirmed_transaction s "consolidation_event" d clk prev)).
Proof.
  intros Hlive Hts. unfold record_consolidation_event.
  match goal with |- context [create_transaction s _ ?d clk] => set (d0 := d) end.
  destruct (create_then_add_explicit s "consolidation_event" d0 clk Hlive Hts)
    as (prev & s1 & Hprev & Hc & Ha).
  exists d0, prev. split; [done|].
  rewrite Hc. simpl. rewrite Ha. simpl.
  by rewrite list_lookup_middle.
Qed.

(** On a live ledger [record_consolidation_event] never returns its failure
    value: it returns the 64-character id of a transaction it has appended
    to the chain, confirmed, under the operation name consolidation_event. *)
Theorem record_consolidation_event_recorded s event_data clk :
  chain_live s → now_isoformat clk ≠ "" →
  ∃ id s' r tx,
    record_consolidation_event s event_data clk = Some (id, s') ∧
    id ≠ "" ∧ String.length id = 64 ∧
    chain s' = chain s ++ [r] ∧ heap s' !! r = Some tx ∧
    tx_id tx = id ∧ operation tx = "consolidation_event" ∧
    status tx = "confirmed" ∧ latest_hash s = Some (previous_hash tx) ∧
    (∀ r0 tx0, heap s !! r0 = Some tx0 → heap s' !! r0 = Some tx0) ∧
    chain_live s'.
Proof.
  intros Hlive Hts.
  destruct (record_consolidation_event_explicit s event_data clk Hlive Hts)
    as (d & prev & Hprev & Hrec).
  eexists _, _, (length (heap s)), _. split; [exact Hrec|].
  split; [apply calculate_hash_nonempty|]. split; [apply calculate_hash_length|].
  split; [done|]. split; [by apply list_lookup_middle|].
  split; [done|]. split; [done|]. split; [done|]. split; [done|]. split.
  - intros r0 tx0 Hr0. by apply lookup_app_l_Some.
  - by apply appended_live.
Qed.

Lemma initialize_ctr_integration_cases svc fs clk :
  chain_live (blockchain svc) → now_isoformat clk ≠ "" →
  (filter (λ f, is_Some (fs !! f)) ctr_files = [] →
     initialize_ctr_integration svc fs clk = Some (false, svc)) ∧
  (filter (λ f, is_Some (fs !! f)) ctr_files ≠ [] →
     ∃ d prev,
       latest_hash (blockchain svc) = Some prev ∧
       initialize_ctr_integration svc fs clk
         = Some (true,
                 with_blockchain (with_ctr svc true)
                   (appended (blockchain svc)
                      (confirmed_transaction (blockchain svc) "ctr_initialization"
                         d clk prev)))).
Proof.
  intros Hlive Hts. unfold initialize_ctr_integration. split.
  - intros ->. by rewrite bool_decide_eq_false_2 by (intros Hne; by apply Hne).
  - intros Hsome. rewrite bool_decide_eq_true_2 by done.
    match goal with |- context [create_transaction _ _ ?d clk] => set (d0 := d) end.
    destruct (create_then_add_explicit (blockchain svc) "ctr_initialization" d0 clk Hlive Hts)
      as (prev & s1 & Hprev & Hc & Ha).
    exists d0, prev. split; [done|]. rewrite Hc. simpl. by rewrite Ha.
Qed.

(** [initialize] on a new service. When the three directories can be made
    it returns true and leaves the service active with exactly one
    transaction, confirmed and linked to the genesis sentinel: a
    ctr_initialization transaction when one of the two CTR contract files
    exists, and only otherwise a genesis transaction. When making the
    directories raises it returns false, the status is error and nothing
    else has changed. *)
Theorem initialize_new_service (fs : gmap string file_entry) (clk_ctr clk_genesis : instant) :
  now_isoformat clk_ctr ≠ "" → now_isoformat clk_genesis ≠ "" →
  (∃ svc' tx,
     initialize new_service Done fs clk_ctr clk_genesis = Some (true, svc') ∧
     service_status svc' = "active" ∧
     chain (blockchain svc') = [0] ∧ heap (blockchain svc') = [tx] ∧
     status tx = "confirmed" ∧ previous_hash tx = genesis_hash ∧
     ctr_integration_enabled svc'
       = bool_decide (filter (λ f, is_Some (fs !! f)) ctr_files ≠ []) ∧
     operation tx
       = (if bool_decide (filter (λ f, is_Some (fs !! f)) ctr_files ≠ [])
          then "ctr_initialization" else "genesis")) ∧
  (∀ e, initialize new_service (Failed e) fs clk_ctr clk_genesis
          = Some (false, with_status new_service "error")).
Proof.
  intros Hctr Hgen. split; [|done].
  assert (chain_live (blockchain new_service)) as Hlive by apply Forall_nil_2.
  destruct (initialize_ctr_integration_cases new_service fs clk_ctr Hlive Hctr)
    as [Hnone Hsome].
  unfold initialize.
  destruct (decide (filter (λ f, is_Some (fs !! f)) ctr_files = [])) as [Hnil|Hne].
  - rewrite (Hnone Hnil). cbn [mbind option_bind].
    rewrite (bool_decide_eq_false_2 (filter _ ctr_files ≠ []))
      by (intros Hne; by apply Hne).
    destruct (create_then_add_explicit (blockchain new_service) "genesis"
                (DDict [ ("message", DVal (PyStr "Chronos Service Genesis Block"));
                         ("version", DVal (PyStr version)) ]) clk_genesis Hlive Hgen)
      as (prev & s1 & Hprev & Hc & Ha).
    injection Hprev as <-.
    rewrite (bool_decide_eq_true_2 (length (chain (blockchain new_service)) = 0)) by done.
    rewrite Hc. cbn [mbind option_bind]. rewrite Ha. cbn [mbind option_bind].
    eexists _, _. split; [reflexivity|]. simpl. repeat split; reflexivity.
  - destruct (Hsome Hne) as (d & prev & Hprev & ->). cbn [mbind option_bind].
    injection Hprev as <-.
    rewrite (bool_decide_eq_true_2 (filter _ ctr_files ≠ [])) by done.
    rewrite (bool_decide_eq_false_2 (length _ = 0)) by (simpl; discriminate).
    cbn [mbind option_bind].
    eexists _, _. split; [reflexivity|]. simpl. repeat split; reflexivity.
Qed.

Lemma verify_consolidation_chain_live s :
  chain_live s → ∃ b log, verify_consolidation_chain s = Some (b, log).
Proof.
  intros (txs & Hobj & _)%chain_objects_live.
  rewrite (verify_consolidation_chain_spec s txs Hobj).
  destruct (spec_verify_chain txs); by eexists _, _.
Qed.

Lemma verify_consolidation_integrity_explicit svc clk chain_ok log :
  chain_live (blockchain svc) → now_isoformat (clk 2) ≠ "" →
  verify_consolidation_chain (blockchain svc) = Some (chain_ok, log) →
  ∃ d prev,
    latest_hash (blockchain svc) = Some prev ∧
    verify_consolidation_integrity svc clk =
      Some ({| blockchain_integrity := chain_ok;
               temporal_consistency := _verify_temporal_consistency (temporal_coordinator svc);
               proof_validity := _verify_all_proofs (proof_engine svc);
               manifest_accuracy := true;
               overall_integrity :=
                 chain_ok && (_verify_temporal_consistency (temporal_coordinator svc)
                 && (_verify_all_proofs (proof_engine svc) && true)) |},
            with_blockchain svc
              (appended (blockchain svc)
                 (confirmed_transaction (blockchain svc) "integrity_verification"
                    d (clk 2) prev))).
Proof.
  intros Hlive Hts Hchain. unfold verify_consolidation_integrity.
  rewrite Hchain. cbn [mbind option_bind].
  destruct (latest_hash_live (blockchain svc) Hlive) as [latest Hlatest].
  rewrite (manifest_accuracy_latest (blockchain svc) (clk 0) latest Hlatest).
  cbn [mbind option_bind].
  match goal with |- context [create_transaction _ _ ?d (clk 2)] => set (d0 := d) end.
  destruct (create_then_add_explicit (blockchain svc) "integrity_verification" d0 (clk 2)
              Hlive Hts) as (prev & s1 & Hprev & Hc & Ha).
  exists d0, prev. split; [done|].
  rewrite Hc. cbn [mbind option_bind]. rewrite Ha. cbn [mbind option_bind].
  reflexivity.
Qed.

(** [verify_consolidation_integrity] is not a read-only check. It reports
    the chain, event and proof checks, reports [manifest_accuracy] as true
    whatever the state, gives their conjunction as [overall_integrity],
    and then appends a confirmed integrity_verification transaction to the
    chain; the coordinator, the proofs, the status and the CTR flag are
    left alone. *)
Theorem verify_consolidation_integrity_effect svc (clk : nat → instant) :
  chain_live (blockchain svc) → now_isoformat (clk 2) ≠ "" →
  ∃ res svc' chain_ok log r tx,
    verify_consolidation_integrity svc clk = Some (res, svc') ∧
    verify_consolidation_chain (blockchain svc) = Some (chain_ok, log) ∧
    blockchain_integrity res = chain_ok ∧
    temporal_consistency res = _verify_temporal_consistency (temporal_coordinator svc) ∧
    proof_validity res = _verify_all_proofs (proof_engine svc) ∧
    manifest_accuracy res = true ∧
    overall_integrity res
      = blockchain_integrity res && temporal_consistency res && proof_validity res ∧
    chain (blockchain svc') = chain (blockchain svc) ++ [r] ∧
    heap (blockchain svc') !! r = Some tx ∧
    operation tx = "integrity_verification" ∧ status tx = "confirmed" ∧
    temporal_coordinator svc' = temporal_coordinator svc ∧
    proof_engine svc' = proof_engine svc ∧
    service_status svc' = service_status svc ∧
    ctr_integration_enabled svc' = ctr_integration_enabled svc ∧
    chain_live (blockchain svc').
Proof.
  intros Hlive Hts.
  destruct (verify_consolidation_chain_live (blockchain svc) Hlive) as (chain_ok & log & Hchain).
  destruct (verify_consolidation_integrity_explicit svc clk chain_ok log Hlive Hts Hchain)
    as (d & prev & Hprev & Hres).
  eexists _, _, chain_ok, log, (length (heap (blockchain svc))), _.
  split; [exact Hres|]. split; [done|]. simpl.
  split; [done|]. split; [done|]. split; [done|]. split; [done|].
  split; [by rewrite andb_true_r, andb_assoc|].
  split; [done|]. split; [by apply list_lookup_middle|].
  split; [done|]. split; [done|]. split; [done|]. split; [done|].
  split; [done|]. split; [done|]. by apply appended_live.
Qed.

Lemma chronos_generate_consolidation_proof_explicit svc op files fs clk_proof clk_tx :
  chain_live (blockchain svc) → now_isoformat clk_tx ≠ "" →
  ∃ d prev,
    latest_hash (blockchain svc) = Some prev ∧
    chronos_generate_consolidation_proof svc op files fs clk_proof clk_tx =
      Some (proof_id (fst (generate_consolidation_proof (proof_engine svc) op files fs clk_proof)),
            with_blockchain
              (with_engine svc
                 (snd (generate_consolidation_proof (proof_engine svc) op files fs clk_proof)))
              (appended (blockchain svc)
                 (confirmed_transaction (blockchain svc) "consolidation_event" d clk_tx prev))).
Proof.
  intros Hlive Hts. unfold chronos_generate_consolidation_proof.
  destruct (generate_consolidation_proof (proof_engine svc) op files fs clk_proof)
    as [proof e1] eqn:Hgen.
  match goal with |- context [record_consolidation_event _ ?ev clk_tx] => set (ev0 := ev) end.
  destruct (record_consolidation_event_explicit (blockchain svc) ev0 clk_tx Hlive Hts)
    as (d & prev & Hprev & Hrec).
  exists d, prev. split; [done|]. rewrite Hrec. reflexivity.
Qed.

(** Between [generate_consolidation_proof] and the finalization of the
    proof the service does not pass its own check: generating a proof
    under an id not yet in use stores it pending and records a transaction,
    and [verify_consolidation_integrity] called next reports
    [proof_validity] and [overall_integrity] false. *)
Theorem pending_proof_fails_integrity svc op files fs clk_proof clk_tx
    (clk : nat → instant) :
  chain_live (blockchain svc) → now_isoformat clk_tx ≠ "" → now_isoformat (clk 2) ≠ "" →
  (∀ p, p ∈ proofs (proof_engine svc) →
        proof_id p ≠ proof_id (fst (generate_consolidation_proof (proof_engine svc)
                                      op files fs clk_proof))) →
  ∃ id svc1 res svc2,
    chronos_generate_consolidation_proof svc op files fs clk_proof clk_tx = Some (id, svc1) ∧
    length (proofs (proof_engine svc1)) = S (length (proofs (proof_engine svc))) ∧
    length (chain (blockchain svc1)) = S (length (chain (blockchain svc))) ∧
    verify_integrity (proof_engine svc1) id = false ∧
    verify_consolidation_integrity svc1 clk = Some (res, svc2) ∧
    proof_validity res = false ∧ overall_integrity res = false.
Proof.
  intros Hlive Htx Hts Hfresh.
  destruct (chronos_generate_consolidation_proof_explicit svc op files fs clk_proof clk_tx
              Hlive Htx) as (d & prev & Hprev & Hgen).
  eexists _, _. 
  match type of Hgen with _ = Some (_, ?svc1') => set (svc1 := svc1') in * end.
  assert (chain_live (blockchain svc1)) as Hlive1 by (by apply appended_live).
  destruct (verify_consolidation_chain_live (blockchain svc1) Hlive1) as (chain_ok & log & Hchain).
  destruct (verify_consolidation_integrity_explicit svc1 clk chain_ok log Hlive1 Hts Hchain)
    as (d' & prev' & Hprev' & Hres).
  eexists _, _. split; [exact Hgen|].
  split; [simpl; rewrite length_app; simpl; lia|].
  split; [simpl; rewrite length_app; simpl; lia|].
  assert (_verify_all_proofs (proof_engine svc1) = false) as Hall.
  { by apply pending_proofs_fail. }
  split.
  { unfold verify_integrity. cbn [proof_engine with_blockchain with_engine].
    by rewrite (find_proof_generated (proof_engine svc) op files fs clk_proof Hfresh). }
  split; [exact Hres|]. cbn [proof_validity overall_integrity].
  rewrite Hall. split; [done|]. by rewrite !andb_false_r.
Qed.

Lemma record_operations_appends (operations : list (list (string * pyval))) :
  ∀ s phase event_id (clk : nat → instant) i,
  chain_live s → (∀ k, now_isoformat (clk k) ≠ "") →
  ∃ s', record_operations s phase event_id operations clk i = Some s' ∧
        chain s' = chain s ++ seq (length (heap s)) (length operations) ∧
        length (heap s') = length (heap s) + length operations ∧
        (∀ r tx, heap s !! r = Some tx → heap s' !! r = Some tx) ∧
        (∀ r, length (heap s) ≤ r → r < length (heap s') →
              ∃ tx, heap s' !! r = Some tx ∧ operation tx = "consolidation_event" ∧
                    status tx = "confirmed") ∧
        chain_live s'.
Proof.
  induction operations as [|operation rest IH]; intros s phase event_id clk i Hlive Hts.
  - exists s. simpl. split; [done|]. split; [by rewrite app_nil_r|].
    split; [lia|]. split; [done|]. split; [intros r ? ?; lia|done].
  - cbn [record_operations].
    match goal with |- context [record_consolidation_event s ?ev (clk i)] => set (ev0 := ev) end.
    destruct (record_consolidation_event_explicit s ev0 (clk i) Hlive (Hts i))
      as (d & prev & Hprev & ->).
    cbn [mbind option_bind].
    set (tx := confirmed_transaction s "consolidation_event" d (clk i) prev).
    destruct (IH (appended s tx) phase event_id clk (S i)) as
      (s' & Hs' & Hchain & Hlen & Hkeep & Hnew & Hlive'); [by apply appended_live|done|].
    exists s'. split; [exact Hs'|]. simpl in Hchain, Hlen. rewrite length_app in Hchain, Hlen.
    simpl in Hchain, Hlen. split.
    { rewrite Hchain, <- app_assoc. simpl. by rewrite Nat.add_1_r. }
    split; [simpl; lia|]. split.
    { intros r tx0 Hr. apply Hkeep. simpl. by apply lookup_app_l_Some. }
    split; [|done]. intros r Hge Hlt.
    destruct (decide (r = length (heap s))) as [->|Hne].
    + exists tx. split; [|done]. apply Hkeep. simpl. by apply list_lookup_middle.
    + apply Hnew; [simpl; rewrite length_app; simpl; lia|done].
Qed.

(** [coordinate_consolidation_phase], nothing running while it is
    suspended. It returns true exactly when no agent it names is locked
    and the awaited step does not raise. It always registers phase_start;
    a rejected call does nothing more. A call that gets the locks frees
    them before it returns and registers coordination_start; only when the
    awaited step completes does it register coordination_complete and
    phase_complete and append one consolidation_event transaction per
    operation to the chain. *)
Theorem coordinate_consolidation_phase_outcome svc (phase : string)
    (agents : list string) (operations : list (list (string * pyval)))
    (clk : nat → instant) (slept : awaited) :
  chain_live (blockchain svc) → (∀ k, now_isoformat (clk k) ≠ "") →
  ∃ b svc',
    coordinate_consolidation_phase svc phase agents operations clk slept = Some (b, svc') ∧
    (b = true ↔
       existsb (locked (temporal_coordinator svc)) agents = false ∧ slept = Completed) ∧
    proof_engine svc' = proof_engine svc ∧
    (existsb (locked (temporal_coordinator svc)) agents = true →
       event_type <$> events (temporal_coordinator svc')
         = (event_type <$> events (temporal_coordinator svc)) ++ ["phase_start"] ∧
       coordination_locks (temporal_coordinator svc')
         = coordination_locks (temporal_coordinator svc) ∧
       blockchain svc' = blockchain svc) ∧
    (existsb (locked (temporal_coordinator svc)) agents = false →
       (∀ a, a ∈ agents → locked (temporal_coordinator svc') a = false) ∧
       match slept with
       | Completed =>
           event_type <$> events (temporal_coordinator svc')
             = (event_type <$> events (temporal_coordinator svc))
               ++ ["phase_start"; "coordination_start"; "coordination_complete";
                   "phase_complete"] ∧
           chain (blockchain svc')
             = chain (blockchain svc)
               ++ seq (length (heap (blockchain svc))) (length operations)
       | Raised _ =>
           event_type <$> events (temporal_coordinator svc')
             = (event_type <$> events (temporal_coordinator svc))
               ++ ["phase_start"; "coordination_start"] ∧
           blockchain svc' = blockchain svc
       end).
Proof.
  intros Hlive Hts. unfold coordinate_consolidation_phase.
  destruct (register_event (temporal_coordinator svc) "phase_start" "chronos" _ (clk 0))
    as [event_id c1] eqn:Hreg.
  assert (c1 = snd (register_event (temporal_coordinator svc) "phase_start" "chronos"
                      (PyDict [ ("phase", PyStr phase); ("agents", PyList (PyStr <$> agents));
                                ("operations", PyList (PyDict <$> operations)) ]) (clk 0)))
    as Hc1 by (by rewrite Hreg).
  assert (existsb (locked c1) agents = existsb (locked (temporal_coordinator svc)) agents)
    as Hsame by (by rewrite Hc1).
  assert (event_type <$> events c1
          = (event_type <$> events (temporal_coordinator svc)) ++ ["phase_start"]) as Hev1.
  { rewrite Hc1. simpl. by rewrite fmap_app. }
  assert (coordination_locks c1 = coordination_locks (temporal_coordinator svc)) as Hlk1.
  { by rewrite Hc1. }
  unfold coordinate_operation, coordinate_begin. rewrite Hsame.
  destruct (existsb (locked (temporal_coordinator svc)) agents) eqn:Hex.
  - (* rejected *)
    cbn [negb]. eexists _, _. split; [reflexivity|]. simpl.
    split; [split; [done|by intros [? _]]|]. split; [done|].
    split; [by intros _|by intros ?].
  - destruct slept as [|err].
    + (* completed *)
      cbn -[record_operations with_coordinator with_blockchain].
      destruct (record_operations_appends operations (blockchain svc) phase event_id clk 4
                  Hlive Hts) as (s' & -> & Hchain & _).
      cbn [mbind option_bind]. eexists _, _. split; [reflexivity|]. simpl.
      split; [done|]. split; [done|]. split; [by intros ?|]. intros _. split.
      * intros a Ha. unfold locked. simpl. rewrite !lookup_set_locks.
        by destruct (decide (a ∈ agents)).
      * split; [|done]. rewrite !fmap_app, Hev1. simpl. by rewrite <- !app_assoc.
    + (* the awaited step raised *)
      cbn -[with_coordinator]. eexists _, _. split; [reflexivity|]. simpl.
      split; [split; [done|by intros [_ ?]]|]. split; [done|].
      split; [by intros ?|]. intros _. split.
      * intros a Ha. unfold locked. simpl. rewrite !lookup_set_locks.
        by destruct (decide (a ∈ agents)).
      * split; [|done]. rewrite !fmap_app, Hev1. simpl. by rewrite <- !app_assoc.
Qed.

(** The report is a snapshot taken before its own integrity check runs:
    the chain length and latest hash it states are those of the chain
    before the call, while the call itself appends an integrity_verification
    transaction, also when writing the report file fails and only the
    error is returned. *)
Theorem get_consolidation_report_snapshot svc (clk : nat → instant) (written : outcome) :
  chain_live (blockchain svc) → now_isoformat (clk 3) ≠ "" →
  ∃ out svc',
    get_consolidation_report svc clk written = Some (out, svc') ∧
    length (chain (blockchain svc')) = S (length (chain (blockchain svc))) ∧
    match written, out with
    | Done, inl rep =>
        manifest_chain_length (report_blockchain_statistics rep)
          = length (chain (blockchain svc)) ∧
        Some (manifest_latest_hash (report_blockchain_statistics rep))
          = latest_hash (blockchain svc) ∧
        report_temporal_events rep = length (events (temporal_coordinator svc)) ∧
        total_proofs (report_proof_statistics rep) = length (proofs (proof_engine svc)) ∧
        manifest_accuracy (report_integrity_verification rep) = true ∧
        report_status rep = service_status svc
    | Failed e, inr e' => e' = e
    | _, _ => False
    end.
Proof.
  intros Hlive Hts. unfold get_consolidation_report.
  destruct (latest_hash_live (blockchain svc) Hlive) as [latest Hlatest].
  unfold get_manifest. rewrite Hlatest. cbn [mbind option_bind].
  destruct (verify_consolidation_chain_live (blockchain svc) Hlive) as (chain_ok & log & Hchain).
  destruct (verify_consolidation_integrity_explicit svc (λ i, clk (1 + i)) chain_ok log
              Hlive Hts Hchain) as (d & prev & Hprev & ->).
  cbn [mbind option_bind].
  destruct written as [|e]; eexists _, _; (split; [reflexivity|]); simpl;
    (split; [rewrite length_app; simpl; lia|]); [|done].
  split; [done|]. split; [done|]. split; [|done].
  apply Permutation_length, sorted_by_sequence_perm.
Qed.

(** [update_blockchain_manifest] returns true exactly when writing the
    manifest file does not raise. When writing raises, nothing is added to
    the chain. Otherwise a confirmed manifest_update transaction is
    appended whose payload is the hash of the manifest written, and the
    manifest written describes the chain without that transaction: its
    chain_length is one less than the length of the chain the call leaves. *)
Theorem update_blockchain_manifest_outdated svc (clk_manifest clk_tx : instant) :
  chain_live (blockchain svc) → now_isoformat clk_tx ≠ "" →
  (∀ e, update_blockchain_manifest svc clk_manifest clk_tx (Failed e)
          = Some (false, None, svc)) ∧
  ∃ m txs svc' r tx,
    get_manifest (blockchain svc) clk_manifest = Some m ∧
    chain_objects (blockchain svc) = Some txs ∧
    update_blockchain_manifest svc clk_manifest clk_tx Done
      = Some (true, Some (updated_manifest svc m txs), svc') ∧
    chain (blockchain svc') = chain (blockchain svc) ++ [r] ∧
    heap (blockchain svc') !! r = Some tx ∧
    operation tx = "manifest_update" ∧ status tx = "confirmed" ∧
    data_hash tx
      = calculate_hash
          (json_dumps_sorted
             (DDict [ ("manifest_hash",
                       DVal (PyStr (calculate_hash
                                      (json_dumps (updated_manifest svc m txs))))) ])) ∧
    S (manifest_chain_length m) = length (chain (blockchain svc')) ∧
    temporal_coordinator svc' = temporal_coordinator svc ∧
    proof_engine svc' = proof_engine svc.
Proof.
  intros Hlive Hts. unfold update_blockchain_manifest.
  destruct (latest_hash_live (blockchain svc) Hlive) as [latest Hlatest].
  destruct (chain_objects_live (blockchain svc) Hlive) as (txs & Htxs & _).
  unfold get_manifest. rewrite Hlatest, Htxs. cbn [mbind option_bind].
  split; [done|].
  match goal with |- context [create_transaction _ _ ?d clk_tx] => set (d0 := d) end.
  destruct (create_then_add_explicit (blockchain svc) "manifest_update" d0 clk_tx Hlive Hts)
    as (prev & s1 & Hprev & Hc & Ha).
  eexists _, txs, _, (length (heap (blockchain svc))), _.
  split; [reflexivity|]. split; [done|].
  rewrite Hc. cbn [mbind option_bind]. rewrite Ha. cbn [mbind option_bind].
  split; [reflexivity|]. simpl.
  split; [done|]. split; [by apply list_lookup_middle|].
  split; [done|]. split; [done|]. split; [done|].
  split; [rewrite length_app; simpl; lia|]. split; done.
Qed.

End ServiceFacts.

(** * Instances of the service theorems *)

Lemma new_service_live : chain_live (blockchain new_service).
Proof. apply Forall_nil_2. Qed.

Lemma still_clock1 : ∀ k, now_isoformat (still clock1 k) ≠ "".
Proof. intros k. discriminate. Qed.

Lemma new_service_fresh (id : string) :
  ∀ p, p ∈ proofs (proof_engine new_service) → proof_id p ≠ id.
Proof. intros p Hp. by apply elem_of_nil in Hp. Qed.

Lemma record_consolidation_event_recorded_witness :
  chain_live (blockchain new_service) ∧ now_isoformat clock1 ≠ "" ∧
  ∃ id s' r tx,
    record_consolidation_event (blockchain new_service)
      [("type", PyStr "scan"); ("agent", PyStr "ananke")] clock1 = Some (id, s') ∧
    id ≠ "" ∧ String.length id = 64 ∧
    chain s' = chain (blockchain new_service) ++ [r] ∧ heap s' !! r = Some tx ∧
    tx_id tx = id ∧ operation tx = "consolidation_event" ∧
    status tx = "confirmed" ∧
    latest_hash (blockchain new_service) = Some (previous_hash tx) ∧
    (∀ r0 tx0, heap (blockchain new_service) !! r0 = Some tx0 → heap s' !! r0 = Some tx0) ∧
    chain_live s'.
Proof.
  split; [exact new_service_live|]. split; [exact clock1_isoformat|].
  apply record_consolidation_event_recorded;
    [exact new_service_live|exact clock1_isoformat].
Defined.

Lemma initialize_new_service_witness :
  now_isoformat clock0 ≠ "" ∧ now_isoformat clock1 ≠ "" ∧
  ∃ svc' tx,
    initialize new_service Done with_contract clock0 clock1 = Some (true, svc') ∧
    heap (blockchain svc') = [tx] ∧ operation tx = "ctr_initialization" ∧
    ctr_integration_enabled svc' = true.
Proof.
  split; [discriminate|]. split; [exact clock1_isoformat|].
  destruct (initialize_new_service with_contract clock0 clock1)
    as [(svc' & tx & Hinit & _ & _ & Hheap & _ & _ & Hctr & Hop) _];
    [discriminate|exact clock1_isoformat|].
  exists svc', tx. split; [exact Hinit|]. split; [exact Hheap|].
  split; [exact Hop|exact Hctr].
Defined.

Lemma verify_consolidation_integrity_effect_witness :
  chain_live (blockchain new_service) ∧ now_isoformat (still clock1 2) ≠ "" ∧
  ∃ res svc',
    verify_consolidation_integrity new_service (still clock1) = Some (res, svc') ∧
    manifest_accuracy res = true ∧
    overall_integrity res
      = blockchain_integrity res && temporal_consistency res && proof_validity res ∧
    length (chain (blockchain svc')) = 1.
Proof.
  split; [exact new_service_live|]. split; [exact (still_clock1 2)|].
  destruct (verify_consolidation_integrity_effect new_service (still clock1)
              new_service_live (still_clock1 2))
    as (res & svc' & chain_ok & log & r & tx & Hres & _ & _ & _ & _ & Hm & Ho & Hc & _).
  exists res, svc'. split; [exact Hres|]. split; [exact Hm|]. split; [exact Ho|].
  rewrite Hc. reflexivity.
Defined.

Lemma pending_proof_fails_integrity_witness :
  chain_live (blockchain new_service) ∧ now_isoformat clock0 ≠ "" ∧
  now_isoformat (still clock1 2) ≠ "" ∧
  ∃ id svc1 res svc2,
    chronos_generate_consolidation_proof new_service "merge" ["a.py"]
      (one_file "x = 1") clock0 clock0 = Some (id, svc1) ∧
    verify_integrity (proof_engine svc1) id = false ∧
    verify_consolidation_integrity svc1 (still clock1) = Some (res, svc2) ∧
    proof_validity res = false ∧ overall_integrity res = false.
Proof.
  split; [exact new_service_live|]. split; [discriminate|].
  split; [exact (still_clock1 2)|].
  assert (now_isoformat clock0 ≠ "") as H0 by discriminate.
  pose proof (pending_proof_fails_integrity new_service "merge" ["a.py"] (one_file "x = 1")
              clock0 clock0 (still clock1) new_service_live H0 (still_clock1 2)
              (new_service_fresh _)) as H.
  destruct H
    as (id & svc1 & res & svc2 & Hgen & _ & _ & Hv & Hres & Hp & Ho).
  exists id, svc1, res, svc2.
  split; [exact Hgen|]. split; [exact Hv|].
  split; [exact Hres|]. split; [exact Hp|exact Ho].
Defined.

Lemma coordinate_consolidation_phase_outcome_witness :
  chain_live (blockchain new_service) ∧ (∀ k, now_isoformat (still clock1 k) ≠ "") ∧
  ∃ svc',
    coordinate_consolidation_phase new_service "one" ["elizaos"; "ananke"]
      two_operations (still clock1) Completed = Some (true, svc') ∧
    event_type <$> events (temporal_coordinator svc')
      = ["phase_start"; "coordination_start"; "coordination_complete"; "phase_complete"] ∧
    chain (blockchain svc') = [0; 1].
Proof.
  split; [exact new_service_live|]. split; [exact still_clock1|].
  destruct (coordinate_consolidation_phase_outcome new_service "one" ["elizaos"; "ananke"]
              two_operations (still clock1) Completed new_service_live still_clock1)
    as (b & svc' & Hphase & Hb & _ & _ & Hfree).
  destruct (Hfree eq_refl) as (_ & Hev & Hchain).
  assert (b = true) as -> by (apply Hb; split; reflexivity).
  exists svc'. split; [exact Hphase|]. split; [exact Hev|exact Hchain].
Defined.

Lemma get_consolidation_report_snapshot_witness :
  chain_live (blockchain new_service) ∧ now_isoformat (still clock1 3) ≠ "" ∧
  ∃ out svc',
    get_consolidation_report new_service (still clock1) (Failed "disk full")
      = Some (out, svc') ∧
    out = inr "disk full" ∧
    length (chain (blockchain svc')) = 1.
Proof.
  split; [exact new_service_live|]. split; [exact (still_clock1 3)|].
  destruct (get_consolidation_report_snapshot new_service (still clock1) (Failed "disk full")
              new_service_live (still_clock1 3)) as (out & svc' & Hrep & Hlen & Hout).
  exists out, svc'. split; [exact Hrep|]. split; [|exact Hlen].
  destruct out as [rep|e']; [destruct Hout|by rewrite Hout].
Defined.

Lemma update_blockchain_manifest_outdated_witness :
  chain_live (blockchain new_service) ∧ now_isoformat clock1 ≠ "" ∧
  ∃ m txs svc',
    update_blockchain_manifest new_service clock0 clock1 Done
      = Some (true, Some (updated_manifest new_service m txs), svc') ∧
    manifest_chain_length m = 0 ∧ length (chain (blockchain svc')) = 1.
Proof.
  split; [exact new_service_live|]. split; [exact clock1_isoformat|].
  destruct (update_blockchain_manifest_outdated new_service clock0 clock1
              new_service_live clock1_isoformat)
    as (_ & m & txs & svc' & r & tx & Hm & _ & Hup & Hchain & _ & _ & _ & _ & Hlen & _).
  exists m, txs, svc'. split; [exact Hup|].
  rewrite <- Hlen. injection Hm as <-. split; reflexivity.
Defined.
